(** * Balance repair of a soft clustering: [geometric_sampling.clustering.agg]

    A shallow embedding of the class [Agg] of
    [src/geometric_sampling/clustering/agg.py] and the properties of its
    transfer loop.

    Numbers.  The entries of the numpy arrays are modelled by exact
    rationals ([Q], compared with [==]); rounding is not modelled.  The three
    quotients of the code ([_minimum_percent], [_zero_percent] and the
    transfer score) are numpy float divisions, which do not raise on a zero
    denominator but yield an infinity or a NaN: their results live in
    [npfloat].  [np.linalg.norm(v) ** 2] is the sum of the squares of [v].

    Arrays.  A vector is a [list Q], a matrix the list of its rows.  Indices
    are produced by [range], [np.nonzero] and [np.argmin], hence natural
    numbers in range; where numpy would raise on an index out of range the
    list functions below return a default, and the theorems carry the range
    hypotheses.  The argument [X] of [fit] alone is taken with its number of
    dimensions, because [fit] reads its shape before anything else. *)

From Stdlib Require Import QArith Qabs Qminmax Qpower Qround ZArith List Bool Arith Lia Lqa.
Import ListNotations.

Local Open Scope Q_scope.

(** ** Rationals as booleans *)

Definition Qltb (a b : Q) : bool := negb (Qle_bool b a).
Definition Qgtb (a b : Q) : bool := Qltb b a.
Definition Qgeb (a b : Q) : bool := Qle_bool b a.

(** ** numpy floats that a division can produce *)

Inductive npfloat : Type :=
| Fin (q : Q)
| PInf
| NInf
| NaN.

(** [a / b] on numpy floats with rational operands: a zero denominator
    gives [inf], [-inf] or [nan] (with a warning), never an exception. *)
Definition np_div (a b : Q) : npfloat :=
  if Qeq_bool b 0 then
    if Qltb 0 a then PInf else if Qltb a 0 then NInf else NaN
  else Fin (a / b).

(** [x < y]; every comparison with a NaN is false. *)
Definition np_ltb (x y : npfloat) : bool :=
  match x, y with
  | NaN, _ | _, NaN => false
  | NInf, NInf => false
  | NInf, _ => true
  | _, NInf => false
  | PInf, _ => false
  | Fin _, PInf => true
  | Fin a, Fin b => Qltb a b
  end.

Definition np_gtb (x y : npfloat) : bool := np_ltb y x.

Definition np_eqb (x y : npfloat) : bool :=
  match x, y with
  | Fin a, Fin b => Qeq_bool a b
  | PInf, PInf | NInf, NInf => true
  | _, _ => false
  end.

Definition np_neg (x : npfloat) : npfloat :=
  match x with
  | Fin q => Fin (- q)
  | PInf => NInf
  | NInf => PInf
  | NaN => NaN
  end.

(** Python's builtin [min(a, b, ...)]: the first argument is kept unless a
    later one is strictly smaller. *)
Definition py_min (a : npfloat) (rest : list npfloat) : npfloat :=
  fold_left (fun best x => if np_ltb x best then x else best) rest a.

(** Python's builtin [max(a, b)]: [b] only when it is strictly greater. *)
Definition py_max (a b : npfloat) : npfloat :=
  if np_gtb b a then b else a.

(** ** Vectors and matrices *)

Definition vec := list Q.
Definition matrix := list vec.

Definition Qsum (v : vec) : Q := fold_right Qplus 0 v.

Fixpoint map2 {A B C : Type} (f : A -> B -> C) (l1 : list A) (l2 : list B) : list C :=
  match l1, l2 with
  | a :: l1', b :: l2' => f a b :: map2 f l1' l2'
  | _, _ => []
  end.

Definition vmul (a b : vec) : vec := map2 Qmult a b.
Definition vsub (a b : vec) : vec := map2 Qminus a b.
Definition vsq (a : vec) : vec := map (fun x => x * x) a.
Definition vadds (a : vec) (s : Q) : vec := map (fun x => x + s) a.

Definition row (A : matrix) (i : nat) : vec := nth i A [].
Definition entry (A : matrix) (i c : nat) : Q := nth c (row A i) 0.
Definition column (A : matrix) (c : nat) : vec := map (fun r => nth c r 0) A.

Fixpoint list_set {A : Type} (l : list A) (n : nat) (v : A) : list A :=
  match l, n with
  | [], _ => []
  | _ :: l', O => v :: l'
  | x :: l', S n' => x :: list_set l' n' v
  end.

(** [A[i, c] = v] *)
Definition set_entry (A : matrix) (i c : nat) (v : Q) : matrix :=
  list_set A i (list_set (row A i) c v).

(** [np.linalg.norm(a - b) ** 2] *)
Definition sqdist (a b : vec) : Q := Qsum (vsq (vsub a b)).

Module Agg.

(** The instance: the fields of [self] that the methods read or write. *)
Record t : Type := mk {
  k : Z;
  tolerance : Z;
  Y_features : matrix;
  X_features : matrix;
  weights : vec;
  m : nat;
  N : nat;
  centroids : matrix;
  labels : list nat;
  membership : matrix;
  Ti : vec;
  Tij : matrix
}.

Definition with_membership (self : t) (M : matrix) : t :=
  mk (k self) (tolerance self) (Y_features self) (X_features self) (weights self)
     (m self) (N self) (centroids self) (labels self) M (Ti self) (Tij self).

Definition with_Tij (self : t) (T : matrix) : t :=
  mk (k self) (tolerance self) (Y_features self) (X_features self) (weights self)
     (m self) (N self) (centroids self) (labels self) (membership self) (Ti self) T.

Definition with_Ti (self : t) (T : vec) : t :=
  mk (k self) (tolerance self) (Y_features self) (X_features self) (weights self)
     (m self) (N self) (centroids self) (labels self) (membership self) T (Tij self).

Definition with_centroids (self : t) (C : matrix) : t :=
  mk (k self) (tolerance self) (Y_features self) (X_features self) (weights self)
     (m self) (N self) C (labels self) (membership self) (Ti self) (Tij self).

(** [range(self.k)] *)
Definition clusters (self : t) : list nat := seq 0 (Z.to_nat (k self)).

(** [10 ** -self.tolerance] *)
Definition tol (self : t) : Q := (10 # 1) ^ (- tolerance self).

(** The stabilizer [1e-9] of the score's denominator. *)
Definition stabilizer : Q := 1 # 1000000000.

(** [_generate_membership]: a row of zeros with a one at the unit's label. *)
Definition _generate_membership (self : t) : matrix :=
  map (fun j => map (fun c => if Nat.eqb c (nth j (labels self) O) then 1 else 0)
                    (clusters self))
      (seq 0 (N self)).

(** [_generate_Tij]: [Tij[c, j] = sum_i X[i, j] * M[i, c]]. *)
Definition _generate_Tij (self : t) : matrix :=
  map (fun c => map (fun j => Qsum (vmul (column (X_features self) j)
                                          (column (membership self) c)))
                    (seq 0 (m self)))
      (clusters self).

(** [_generate_Ti]: [Ti[c] = sum_j w[j] * Tij[c, j]], on a fresh [Tij]. *)
Definition _generate_Ti (self : t) : vec :=
  map (fun r => Qsum (vmul (weights self) r)) (_generate_Tij self).

(** [_weighet_norm] *)
Definition _weighet_norm (self : t) (array : vec) : Q :=
  Qsum (vmul (weights self) (vsq array)).

(** [np.sum(self.weights * self.X_features[i] ** 2)] *)
Definition aux_norm (self : t) (data_index : nat) : Q :=
  Qsum (vmul (weights self) (vsq (row (X_features self) data_index))).

(** [np.sum(self.weights * self.X_features[i] * v)] *)
Definition aux_dot (self : t) (data_index : nat) (v : vec) : Q :=
  Qsum (vmul (vmul (weights self) (row (X_features self) data_index)) v).

Definition _minimum_percent (self : t) (data_index from_index to_index : nat) : npfloat :=
  np_div (aux_dot self data_index
            (vsub (row (Tij self) from_index) (row (Tij self) to_index)))
         (2 * aux_norm self data_index).

Definition _zero_percent (self : t) (data_index cluster : nat) : npfloat :=
  np_div (aux_dot self data_index (row (Tij self) cluster))
         (aux_norm self data_index).

(** The denominator of the score:
    [_weighet_norm(Tij[current] - Tij[new] + 1e-9)]. *)
Definition score_denominator (self : t) (current_cluster_indx new_cluster_indx : nat) : Q :=
  _weighet_norm self
    (vadds (vsub (row (Tij self) current_cluster_indx)
                 (row (Tij self) new_cluster_indx))
           stabilizer).

Definition _transfer_score (self : t) (data_indx current_cluster_indx new_cluster_indx : nat)
  : npfloat :=
  if np_gtb (_minimum_percent self data_indx current_cluster_indx new_cluster_indx)
            (Fin (tol self))
  then
    np_div (sqdist (row (Y_features self) data_indx)
                   (row (centroids self) new_cluster_indx)
            - sqdist (row (Y_features self) data_indx)
                     (row (centroids self) current_cluster_indx))
           (score_denominator self current_cluster_indx new_cluster_indx)
  else PInf.

(** [np.argmin]: the index of the first minimum; a NaN counts as the
    minimum and the first one wins.  On an empty list numpy raises, see
    [_get_transfer_records]. *)
Definition argmin_better (x best : npfloat) : bool :=
  match best, x with
  | NaN, _ => false
  | _, NaN => true
  | _, _ => np_ltb x best
  end.

Fixpoint argmin_from (l : list npfloat) (idx best_idx : nat) (best : npfloat) : nat :=
  match l with
  | [] => best_idx
  | x :: l' =>
      if argmin_better x best then argmin_from l' (S idx) idx x
      else argmin_from l' (S idx) best_idx best
  end.

Definition np_argmin (l : list npfloat) : nat :=
  match l with
  | [] => O
  | x :: l' => argmin_from l' 1%nat O x
  end.

(** [np.nonzero(v)[0]] *)
Definition np_nonzero (v : vec) : list nat :=
  filter (fun c => negb (Qeq_bool (nth c v 0) 0)) (seq 0 (length v)).

(** A row [(cost, i, j_old, j_new_min)] of [costs]. *)
Definition cost_record : Type := (npfloat * nat * nat * nat)%type.
Definition transfer_record : Type := (nat * nat * nat)%type.

Definition cost_of (r : cost_record) : npfloat :=
  match r with (c, _, _, _) => c end.

(** [costs[np.argsort(costs[:, 0])]]: ascending, NaN last.  The default
    kind of [np.argsort] promises no order among equal costs; the model keeps
    them in the order of [costs], and no statement below depends on which of
    several equal costs comes first. *)
Definition sorts_before (x y : npfloat) : bool :=
  match x, y with
  | NaN, _ => false
  | _, NaN => true
  | _, _ => np_ltb x y
  end.

Fixpoint insert_record (r : cost_record) (l : list cost_record) : list cost_record :=
  match l with
  | [] => [r]
  | x :: l' =>
      if sorts_before (cost_of x) (cost_of r) then x :: insert_record r l'
      else r :: l
  end.

Definition sort_by_cost (l : list cost_record) : list cost_record :=
  fold_right insert_record [] l.

(** The list [costs] built by the two nested loops. *)
Definition transfer_costs (self : t) : list cost_record :=
  flat_map
    (fun i =>
       map (fun j_old =>
              let j_new_min :=
                np_argmin (map (fun j_new => _transfer_score self i j_old j_new)
                               (clusters self)) in
              (_transfer_score self i j_old j_new_min, i, j_old, j_new_min))
           (np_nonzero (row (membership self) i)))
    (seq 0 (N self)).

(** [_get_transfer_records]; [None] is an exception: the [ValueError] of
    [np.argmin] on an empty list of scores ([k <= 0]), or the [IndexError] of
    [costs[:, 0]] on an empty [costs]. *)
Definition _get_transfer_records (self : t) (top_m : nat) : option (list transfer_record) :=
  match clusters self, transfer_costs self with
  | [], _ => None
  | _, [] => None
  | _, costs =>
      Some (map (fun r => match r with (_, i, j_old, j_new) => (i, j_old, j_new) end)
                (firstn top_m (sort_by_cost costs)))
  end.

(** The test that selects the first branch of [_transfer]. *)
Definition same_side (self : t) (from_index to_index : nat) : bool :=
  (Qgeb (nth from_index (Ti self) 0) (- tol self)
   && Qgeb (nth to_index (Ti self) 0) (- tol self))
  || (Qle_bool (nth from_index (Ti self) 0) (tol self)
      && Qle_bool (nth to_index (Ti self) 0) (tol self)).

(** The local [transfer_percent] of [_transfer]. *)
Definition transfer_percent (self : t) (data_index from_index to_index : nat) : npfloat :=
  if same_side self from_index to_index then
    py_min (Fin (entry (membership self) data_index from_index))
           [_minimum_percent self data_index from_index to_index]
  else
    py_min (Fin (entry (membership self) data_index from_index))
           [py_max (Fin 0) (_zero_percent self data_index from_index);
            py_max (Fin 0) (np_neg (_zero_percent self data_index to_index))].

(** The two assignments that end [_transfer]. *)
Definition move_mass (M : matrix) (data_index from_index to_index : nat) (amount : Q) : matrix :=
  let M1 := set_entry M data_index from_index (entry M data_index from_index - amount) in
  set_entry M1 data_index to_index (entry M1 data_index to_index + amount).

(** [_transfer].  [None]: the amount is not a rational number (it can only
    be [-inf]), so the membership would hold infinities. *)
Definition _transfer (self : t) (data_index from_index to_index : nat) : option t :=
  match transfer_percent self data_index from_index to_index with
  | Fin amount =>
      Some (with_membership self
              (move_mass (membership self) data_index from_index to_index amount))
  | _ => None
  end.

(** [_no_transfer_possible]: the argument is the integer array of
    [_get_transfer_records], whose column 0 is the data index. *)
Definition _no_transfer_possible (transfer_records : list transfer_record) : bool :=
  match transfer_records with
  | (data_index, _, _) :: _ => np_eqb (Fin (inject_Z (Z.of_nat data_index))) PInf
  | [] => false
  end.

Definition _is_transfer_possible (self : t) (from_cluster to_cluster : nat) : bool :=
  Qgtb (Qabs (nth from_cluster (Ti self) 0 - nth to_cluster (Ti self) 0)) (tol self).

Definition _stop_codition (self : t) (tol_exp : Z) : bool :=
  forallb (fun x => Qltb (Qabs x) ((10 # 1) ^ (- tol_exp))) (Ti self).

(** [_update_centroids]: [np.mean] over the units, transposed. *)
Definition _update_centroids (self : t) : t :=
  with_centroids self
    (map (fun c =>
            map (fun d => Qsum (vmul (column (Y_features self) d)
                                     (column (membership self) c))
                          / inject_Z (Z.of_nat (length (Y_features self))))
                (seq 0 (length (row (Y_features self) 0))))
         (clusters self)).

(** [_expected_num_transfers] (not called by [fit]).  [None] is an
    exception: the [ValueError] of [np.max] on an empty array ([Ti] empty),
    or that of [int] on a NaN or an infinity (no nonzero membership, or a
    zero mean of the nonzero memberships). *)
Definition _expected_num_transfers (self : t) : option Z :=
  match flat_map (fun a => map (fun b => b - a) (Ti self)) (Ti self) with
  | [] => None
  | d :: ds =>
      let max_diff_sum :=
        fold_left (fun best x => if Qltb best x then x else best) ds d in
      let nonzero :=
        filter (fun x => negb (Qeq_bool x 0)) (concat (membership self)) in
      match np_div (Qsum nonzero) (inject_Z (Z.of_nat (length nonzero))) with
      | Fin mean_nonzero_probs =>
          match np_div max_diff_sum (2 * mean_nonzero_probs) with
          | Fin q => Some (Z.max (Qfloor q) 1)
          | _ => None
          end
      | _ => None
      end
  end.

(** ** The loop of [fit] *)

(** What one pass through the body of the [while] does. *)
Inductive flow : Type :=
| Continue (self : t)
| Break (self : t)
| Exception
| Infinite.

(** The [for] over the selected records: a record is executed when
    [_is_transfer_possible], and [Tij], [Ti] are regenerated at once. *)
Fixpoint run_records (self : t) (transfer_records : list transfer_record) : option t :=
  match transfer_records with
  | [] => Some self
  | (data_index, from_cluster_index, to_cluster_index) :: rest =>
      if _is_transfer_possible self from_cluster_index to_cluster_index then
        match _transfer self data_index from_cluster_index to_cluster_index with
        | Some s1 =>
            let s2 := with_Tij s1 (_generate_Tij s1) in
            let s3 := with_Ti s2 (_generate_Ti s2) in
            run_records s3 rest
        | None => None
        end
      else run_records self rest
  end.

Definition loop_body (self : t) : flow :=
  match _get_transfer_records self 1 with
  | None => Exception
  | Some transfer_records =>
      if _no_transfer_possible transfer_records then Break self
      else
        match run_records self transfer_records with
        | Some self' => Continue (_update_centroids self')
        | None => Infinite
        end
  end.

(** How a run ends, with the value of [iter_]. *)
Inductive outcome : Type :=
| Finished (self : t) (iter_ : nat)
| Raised (iter_ : nat)
| Unmodelled (iter_ : nat).

Definition iterations (o : outcome) : nat :=
  match o with
  | Finished _ n | Raised n | Unmodelled n => n
  end.

(** [while not self._stop_codition(self.tolerance) and iter_ < 100].  The
    recursion is on [fuel], a bound on the number of tests of the condition;
    [None] means that the bound was too small. *)
Fixpoint while_loop (fuel : nat) (self : t) (iter_ : nat) : option outcome :=
  match fuel with
  | O => None
  | S fuel' =>
      if negb (_stop_codition self (tolerance self)) && Nat.ltb iter_ 100 then
        match loop_body self with
        | Continue self' => while_loop fuel' self' (S iter_)
        | Break self' => Some (Finished self' iter_)
        | Exception => Some (Raised iter_)
        | Infinite => Some (Unmodelled iter_)
        end
      else Some (Finished self iter_)
  end.

(** ** [fit] and its collaborator *)

(** The lines of [fit] between the hard clustering and the loop: centroids
    and labels are taken from it, then [membership], [Tij] and [Ti] are
    generated in this order. *)
Definition seed (self : t) (cluster_centers : matrix) (kmeans_labels : list nat) : t :=
  let self := mk (k self) (tolerance self) (Y_features self) (X_features self)
                 (weights self) (m self) (N self)
                 cluster_centers kmeans_labels [] [] [] in
  let self := with_membership self (_generate_membership self) in
  let self := with_Tij self (_generate_Tij self) in
  with_Ti self (_generate_Ti self).

(** The arguments of one call of the hard-clustering routine:
    [KMeans(n_clusters, init, n_init=10, tol).fit(Y)]. *)
Record kmeans_call : Type := mk_call {
  n_clusters : Z;
  init : option matrix;
  kmeans_tol : Q;
  data : matrix
}.

(** A computation that records the calls it makes to the collaborator. *)
Definition traced (A : Type) : Type := (list kmeans_call * A)%type.

Definition ret {A : Type} (a : A) : traced A := ([], a).

Definition bind {A B : Type} (c : traced A) (f : A -> traced B) : traced B :=
  let (log1, a) := c in
  let (log2, b) := f a in
  (log1 ++ log2, b).

Notation "x <- c ;; f" := (bind c (fun x => f))
  (at level 61, c at next level, right associativity).

(** The argument [X_features] of [fit] by its number of dimensions.  Lines
    148-149 read [X_features.shape[1]] and [X_features.shape[0]]; the first
    exists only from two dimensions on. *)
Inductive ndarray : Type :=
| Array0 (x : Q)
| Array1 (v : vec)
| Array2 (A : matrix).

(** What [fit] leaves: [ShapeIndexError] is the [IndexError] of
    [X_features.shape[1]] at line 148, [KMeansError] is an exception raised
    inside the hard-clustering routine; [OutOfFuel] never happens, 101 tests
    of the loop condition being always enough. *)
Inductive fit_result : Type :=
| ShapeIndexError
| KMeansError
| Ran (o : outcome)
| OutOfFuel.

Section Fit.

(** The hard-clustering routine: centroids and one label per row, or an
    exception. *)
Variable KMeans : kmeans_call -> option (matrix * list nat).

Definition call_kmeans (c : kmeans_call) : traced (option (matrix * list nat)) :=
  ([c], KMeans c).

(** [Agg(k, initial_centroids=..., tolerance=...).fit(Y, X, w)].  The
    three assignments of lines 145-147 cannot fail; [self.m] and [self.N] are
    read from the shape of [X] before the hard clustering is built, which
    raises on an [X] of fewer than two dimensions.  [Y] is only handed to the
    hard clustering, which judges its shape itself. *)
Definition fit (k0 : Z) (initial_centroids : option matrix) (tolerance0 : Z)
    (Y_features0 : matrix) (X_features0 : ndarray) (weights0 : vec)
  : traced fit_result :=
  match X_features0 with
  | Array0 _ | Array1 _ => ret ShapeIndexError
  | Array2 X =>
      let self := mk k0 tolerance0 Y_features0 X weights0
                     (length (row X 0)) (length X)
                     [] [] [] [] [] in
      kmeans <- call_kmeans (mk_call k0 initial_centroids (tol self) Y_features0) ;;
      match kmeans with
      | None => ret KMeansError
      | Some (cluster_centers, kmeans_labels) =>
          ret (match while_loop 101 (seed self cluster_centers kmeans_labels) 0 with
               | Some o => Ran o
               | None => OutOfFuel
               end)
      end
  end.

End Fit.

End Agg.

(** * Vocabulary of the statements *)

(** [np.sum(A)] *)
Definition total (A : matrix) : Q := Qsum (map Qsum A).

(** Every row of the membership has one entry per cluster and sums to 1. *)
Definition rows_sum_to_one (self : Agg.t) : Prop :=
  forall i, (i < length (Agg.membership self))%nat ->
    length (row (Agg.membership self) i) = Z.to_nat (Agg.k self)
    /\ Qsum (row (Agg.membership self) i) == 1.

(** The states at the head of the [while] of [fit], from [s0] on. *)
Inductive reachable (s0 : Agg.t) : Agg.t -> Prop :=
| reach_seed : reachable s0 s0
| reach_iter (s s' : Agg.t) :
    reachable s0 s -> Agg.loop_body s = Agg.Continue s' -> reachable s0 s'.

(** [Tij] and [Ti] are the ones generated from the current membership, as
    after every execution of lines 162-163 and 177-178. *)
Definition in_sync (self : Agg.t) : Prop :=
  Agg.Tij self = Agg._generate_Tij self /\ Agg.Ti self = Agg._generate_Ti self.

(** The shapes of the arrays: [X] is [N x m], [w] has length [m], the
    membership is [N x k]. *)
Definition well_shaped (self : Agg.t) : Prop :=
  length (Agg.X_features self) = Agg.N self
  /\ (forall i, (i < Agg.N self)%nat -> length (row (Agg.X_features self) i) = Agg.m self)
  /\ length (Agg.weights self) = Agg.m self
  /\ length (Agg.membership self) = Agg.N self
  /\ (forall i, (i < Agg.N self)%nat ->
        length (row (Agg.membership self) i) = Z.to_nat (Agg.k self)).

(** The scenario of the specification: four units on a line, one auxiliary
    variable, two clusters found by the hard clustering, [Ti = [2, -2]]. *)
Definition scenario : Agg.t :=
  Agg.seed (Agg.mk 2 9 [[0]; [1]; [10]; [11]] [[1]; [1]; [-1]; [-1]] [1]
                   1 4 [] [] [] [] [])
           [[1 # 2]; [21 # 2]] [0; 0; 1; 1]%nat.

(** Two clusters on the same side of zero and one auxiliary variable:
    [Ti = [4, 2]]. *)
Definition one_sided : Agg.t :=
  Agg.seed (Agg.mk 2 9 [[0]; [1]; [10]; [11]] [[3]; [1]; [1]; [1]] [1]
                   1 4 [] [] [] [] [])
           [[1 # 2]; [21 # 2]] [0; 0; 1; 1]%nat.

(** Two auxiliary variables, [Ti = [1/2, 5]]: the cheapest transfer moves
    unit 0 from cluster 0 to cluster 1. *)
Definition crossing : Agg.t :=
  Agg.seed (Agg.mk 2 9 [[1]; [0]; [10]] [[2; -1]; [0; -1 # 2]; [0; 5]] [1; 1]
                   2 3 [] [] [] [] [])
           [[1 # 2]; [10]] [0; 0; 1]%nat.

(** Two auxiliary variables that cancel in every cluster: [Ti = [0, 0]]. *)
Definition converged : Agg.t :=
  Agg.seed (Agg.mk 2 9 [[0]; [10]] [[1; -1]; [-1; 1]] [1; 1]
                   2 2 [] [] [] [] [])
           [[0]; [10]] [0; 1]%nat.

(** The totals of the two clusters differ by exactly [-1e-9]. *)
Definition degenerate : Agg.t :=
  Agg.seed (Agg.mk 2 9 [[0]; [1]; [10]] [[-1 # 4]; [1 # 4]; [1 # 1000000000]] [1]
                   1 3 [] [] [] [] [])
           [[1 # 2]; [10]] [0; 0; 1]%nat.

(** The membership-weighted mean of coordinate [d] over cluster [c]:
    [(sum_i M[i, c] * Y[i, d]) / (sum_i M[i, c])]. *)
Definition weighted_mean (self : Agg.t) (c d : nat) : Q :=
  Qsum (vmul (column (Agg.Y_features self) d) (column (Agg.membership self) c))
  / Qsum (column (Agg.membership self) c).

(** The inputs that the specification wants [fit] to reject: the shapes of
    [Y], [X], [w] do not agree, or the cluster count is not in [1..N]. *)
Definition inconsistent_input (k0 : Z) (Y X : matrix) (w : vec) : Prop :=
  length X <> length Y
  \/ length w <> length (row X 0)
  \/ (k0 <= 0)%Z
  \/ (Z.of_nat (length X) < k0)%Z.

(** A hard-clustering routine that rejects every input. *)
Definition KMeans_rejects (c : Agg.kmeans_call) : option (matrix * list nat) := None.

(** No entry of the membership is negative. *)
Definition nonnegative (M : matrix) : Prop := forall i c, 0 <= entry M i c.

(** The feasibility gate of [_transfer_score]:
    [_minimum_percent(i, j_old, j_new) > 10 ** -tolerance]. *)
Definition feasible (self : Agg.t) (i j_old j_new : nat) : bool :=
  np_gtb (Agg._minimum_percent self i j_old j_new) (Fin (Agg.tol self)).

(** A hard-clustering routine that returns the given centroids and
    labels. *)
Definition KMeans_returns (cluster_centers : matrix) (kmeans_labels : list nat)
    (c : Agg.kmeans_call) : option (matrix * list nat) :=
  Some (cluster_centers, kmeans_labels).

(** Lines 177-178 of [fit]: [Tij], then [Ti], generated again. *)
Definition regenerated (s1 : Agg.t) : Agg.t :=
  let s2 := Agg.with_Tij s1 (Agg._generate_Tij s1) in
  Agg.with_Ti s2 (Agg._generate_Ti s2).

(** [Ti] as a function of the arrays it is generated from. *)
Definition Ti_of (X M : matrix) (w : vec) (m ncl : nat) : vec :=
  map (fun c => Qsum (vmul w (map (fun j => Qsum (vmul (column X j) (column M c)))
                                  (seq 0 m))))
      (seq 0 ncl).

(** The weighted auxiliary total [sum_j w[j] * X[i, j]] of every unit. *)
Definition unit_totals (X : matrix) (w : vec) : vec :=
  map (fun x => Qsum (vmul w x)) X.

(** Two units with the same auxiliary value, one per cluster:
    [Ti = [1, 1]] and no candidate passes the feasibility gate. *)
Definition stalled : Agg.t :=
  Agg.seed (Agg.mk 2 9 [[0]; [10]] [[1]; [1]] [1] 1 2 [] [] [] [] [])
           [[0]; [10]] [0; 1]%nat.

(** * Properties *)

(** ** Comparisons *)

Lemma Qltb_lt (a b : Q) : Qltb a b = true <-> a < b.
Proof.
  unfold Qltb. rewrite negb_true_iff. split; intro H.
  - apply Qnot_le_lt. intro Hle. apply Qle_bool_iff in Hle. congruence.
  - destruct (Qle_bool b a) eqn:E; [|reflexivity].
    apply Qle_bool_iff in E. exfalso. apply (Qlt_not_le _ _ H E).
Qed.

Lemma Qltb_ge (a b : Q) : Qltb a b = false <-> b <= a.
Proof.
  unfold Qltb. rewrite negb_false_iff. apply Qle_bool_iff.
Qed.

Lemma Qeq_bool_false (a b : Q) : ~ a == b -> Qeq_bool a b = false.
Proof.
  intro H. destruct (Qeq_bool a b) eqn:E; [|reflexivity].
  apply Qeq_bool_iff in E. contradiction.
Qed.

Lemma tol_pos (self : Agg.t) : 0 < Agg.tol self.
Proof. unfold Agg.tol. apply Qpower_0_lt. reflexivity. Qed.

Lemma np_div_fin (a b : Q) : ~ b == 0 -> np_div a b = Fin (a / b).
Proof. intro H. unfold np_div. rewrite (Qeq_bool_false _ _ H). reflexivity. Qed.

(** ** Lists *)

Lemma length_list_set {A : Type} (l : list A) (n : nat) (v : A) :
  length (list_set l n v) = length l.
Proof.
  revert n; induction l as [|x l IH]; intros [|n]; simpl; auto.
Qed.

Lemma nth_list_set_eq {A : Type} (l : list A) (n : nat) (v d : A) :
  (n < length l)%nat -> nth n (list_set l n v) d = v.
Proof.
  revert n; induction l as [|x l IH]; intros [|n] H; simpl in *; try lia; auto.
  apply IH; lia.
Qed.

Lemma nth_list_set_neq {A : Type} (l : list A) (n n' : nat) (v d : A) :
  n <> n' -> nth n' (list_set l n v) d = nth n' l d.
Proof.
  revert n n'; induction l as [|x l IH]; intros [|n] [|n'] H; simpl; auto; try lia.
Qed.

Lemma nth_map_seq {A : Type} (f : nat -> A) (n j : nat) (d : A) :
  (j < n)%nat -> nth j (map f (seq 0 n)) d = f j.
Proof.
  intro H. rewrite (nth_indep _ d (f O)) by (rewrite length_map, length_seq; exact H).
  rewrite (map_nth f (seq 0 n) O j). rewrite seq_nth by exact H. reflexivity.
Qed.

Lemma length_map2 {A B C : Type} (f : A -> B -> C) (l1 : list A) (l2 : list B) :
  length (map2 f l1 l2) = Nat.min (length l1) (length l2).
Proof.
  revert l2; induction l1 as [|a l1 IH]; intros [|b l2]; simpl; auto.
Qed.

(** ** Sums *)

Lemma Qsum_list_set (l : vec) (n : nat) (v : Q) :
  (n < length l)%nat -> Qsum (list_set l n v) == Qsum l - nth n l 0 + v.
Proof.
  revert n; induction l as [|x l IH]; intros [|n] H; simpl in *; try lia.
  - ring.
  - rewrite IH by lia. ring.
Qed.

Lemma Qsum_ext (l l' : vec) : Forall2 Qeq l l' -> Qsum l == Qsum l'.
Proof.
  induction 1 as [|x y l l' Hxy _ IH]; simpl; [reflexivity|].
  rewrite Hxy, IH. reflexivity.
Qed.

Lemma vmul_ext (a b b' : vec) : Forall2 Qeq b b' -> Forall2 Qeq (vmul a b) (vmul a b').
Proof.
  intro H. revert a. induction H as [|x y l l' Hxy _ IH]; intros [|a0 a]; simpl;
    constructor; auto. rewrite Hxy. reflexivity.
Qed.

Lemma Forall2_Qeq_nth (l l' : vec) :
  length l = length l' ->
  (forall j, (j < length l)%nat -> nth j l 0 == nth j l' 0) ->
  Forall2 Qeq l l'.
Proof.
  revert l'; induction l as [|x l IH]; intros [|y l'] Hlen H; simpl in *;
    try discriminate; constructor.
  - apply (H O). lia.
  - apply IH; [lia|]. intros j Hj. apply (H (S j)). lia.
Qed.

(** [sum (a * (b + s * x)) = sum (a * b) + s * sum (a * x)] *)
Lemma Qsum_vmul_axpy (a b x : vec) (s : Q) :
  length b = length x ->
  Qsum (vmul a (map2 (fun t y => t + s * y) b x))
  == Qsum (vmul a b) + s * Qsum (vmul a x).
Proof.
  unfold vmul.
  revert b x; induction a as [|a0 a IH]; intros [|b0 b] [|x0 x] H; simpl in *;
    try discriminate; try ring.
  rewrite IH by lia. ring.
Qed.

Lemma Qsum_vmul_vsub (a b c : vec) :
  length b = length c ->
  Qsum (vmul a (vsub b c)) == Qsum (vmul a b) - Qsum (vmul a c).
Proof.
  unfold vmul, vsub.
  revert b c; induction a as [|a0 a IH]; intros [|b0 b] [|c0 c] H; simpl in *;
    try discriminate; try ring.
  rewrite IH by lia. ring.
Qed.

Lemma Qsum_vmul_vsq (a x : vec) :
  Qsum (vmul (vmul a x) x) == Qsum (vmul a (vsq x)).
Proof.
  unfold vmul, vsq.
  revert x; induction a as [|a0 a IH]; intros [|x0 x]; simpl; try reflexivity.
  rewrite IH. ring.
Qed.

(** Changing row [i] of [A] changes the weighted sum of a column by the
    weight of [i] times the change of the entry. *)
Lemma Qsum_column_list_set (xs : vec) (A : matrix) (i c : nat) (r : vec) :
  (i < length A)%nat -> length xs = length A ->
  Qsum (vmul xs (column (list_set A i r) c))
  == Qsum (vmul xs (column A c)) + nth i xs 0 * (nth c r 0 - entry A i c).
Proof.
  unfold entry, row, vmul.
  revert xs i; induction A as [|a A IH]; intros [|x xs] [|i] Hi Hlen; simpl in *;
    try lia.
  - ring.
  - rewrite IH by lia. ring.
Qed.

(** ** Writing one entry of a matrix *)

Lemma row_in_range (A : matrix) (i c : nat) :
  (c < length (row A i))%nat -> (i < length A)%nat.
Proof.
  unfold row. intro H. destruct (Nat.lt_ge_cases i (length A)) as [Hi|Hi]; [exact Hi|].
  rewrite nth_overflow in H by exact Hi. simpl in H. lia.
Qed.

Lemma row_set_entry_same (A : matrix) (i c : nat) (v : Q) :
  (i < length A)%nat -> row (set_entry A i c v) i = list_set (row A i) c v.
Proof. intro H. unfold set_entry, row. apply nth_list_set_eq. exact H. Qed.

Lemma row_set_entry_other (A : matrix) (i i' c : nat) (v : Q) :
  i <> i' -> row (set_entry A i c v) i' = row A i'.
Proof. intro H. unfold set_entry, row. apply nth_list_set_neq. exact H. Qed.

Lemma length_set_entry (A : matrix) (i c : nat) (v : Q) :
  length (set_entry A i c v) = length A.
Proof. unfold set_entry. apply length_list_set. Qed.

Lemma length_row_set_entry (A : matrix) (i i' c : nat) (v : Q) :
  length (row (set_entry A i c v) i') = length (row A i').
Proof.
  destruct (Nat.eq_dec i i') as [->|Hne].
  - destruct (Nat.lt_ge_cases i' (length A)) as [Hi|Hi].
    + rewrite row_set_entry_same by exact Hi. apply length_list_set.
    + unfold row. rewrite !nth_overflow; [reflexivity|exact Hi|].
      rewrite length_set_entry. exact Hi.
  - rewrite row_set_entry_other by exact Hne. reflexivity.
Qed.

Lemma entry_set_entry_same (A : matrix) (i c : nat) (v : Q) :
  (c < length (row A i))%nat -> entry (set_entry A i c v) i c = v.
Proof.
  intro H. unfold entry.
  rewrite row_set_entry_same by (eapply row_in_range; exact H).
  apply nth_list_set_eq. exact H.
Qed.

Lemma entry_set_entry_other (A : matrix) (i c i' c' : nat) (v : Q) :
  (i', c') <> (i, c) -> entry (set_entry A i c v) i' c' = entry A i' c'.
Proof.
  intro H. unfold entry. destruct (Nat.eq_dec i i') as [->|Hne].
  - destruct (Nat.lt_ge_cases i' (length A)) as [Hi|Hi].
    + rewrite row_set_entry_same by exact Hi. apply nth_list_set_neq.
      intros ->. apply H. reflexivity.
    + unfold row. rewrite (nth_overflow (set_entry A i' c v))
        by (rewrite length_set_entry; exact Hi).
      rewrite (nth_overflow A) by exact Hi. reflexivity.
  - rewrite row_set_entry_other by exact Hne. reflexivity.
Qed.

Lemma Qsum_row_set_entry (A : matrix) (i c : nat) (v : Q) :
  (c < length (row A i))%nat ->
  Qsum (row (set_entry A i c v) i) == Qsum (row A i) - entry A i c + v.
Proof.
  intro H. rewrite row_set_entry_same by (eapply row_in_range; exact H).
  unfold entry. apply Qsum_list_set. exact H.
Qed.

Lemma total_list_set (A : matrix) (i : nat) (r : vec) :
  (i < length A)%nat ->
  total (list_set A i r) == total A - Qsum (row A i) + Qsum r.
Proof.
  unfold total, row.
  revert i; induction A as [|a A IH]; intros [|i] H; simpl in *; try lia.
  - ring.
  - rewrite IH by lia. ring.
Qed.

(** ** The two assignments of [_transfer] *)

Section MoveMass.

Variables (M : matrix) (i from_index to_index : nat) (amount : Q).
Hypothesis Hfrom : (from_index < length (row M i))%nat.
Hypothesis Hto : (to_index < length (row M i))%nat.

Lemma move_mass_length_row (i' : nat) :
  length (row (Agg.move_mass M i from_index to_index amount) i') = length (row M i').
Proof. unfold Agg.move_mass. rewrite !length_row_set_entry. reflexivity. Qed.

Lemma move_mass_length :
  length (Agg.move_mass M i from_index to_index amount) = length M.
Proof. unfold Agg.move_mass. rewrite !length_set_entry. reflexivity. Qed.

Lemma move_mass_other (i' c : nat) :
  (i', c) <> (i, from_index) -> (i', c) <> (i, to_index) ->
  entry (Agg.move_mass M i from_index to_index amount) i' c = entry M i' c.
Proof.
  intros H1 H2. unfold Agg.move_mass.
  rewrite entry_set_entry_other by exact H2.
  apply entry_set_entry_other. exact H1.
Qed.

Lemma move_mass_other_row (i' : nat) :
  i <> i' -> row (Agg.move_mass M i from_index to_index amount) i' = row M i'.
Proof.
  intro H. unfold Agg.move_mass. rewrite !row_set_entry_other by exact H. reflexivity.
Qed.

Lemma move_mass_to :
  from_index <> to_index ->
  entry (Agg.move_mass M i from_index to_index amount) i to_index
  == entry M i to_index + amount.
Proof.
  intro Hne. unfold Agg.move_mass.
  rewrite entry_set_entry_same by (rewrite length_row_set_entry; exact Hto).
  rewrite entry_set_entry_other; [reflexivity|].
  intro E. inversion E. congruence.
Qed.

Lemma move_mass_from :
  from_index <> to_index ->
  entry (Agg.move_mass M i from_index to_index amount) i from_index
  == entry M i from_index - amount.
Proof.
  intro Hne. unfold Agg.move_mass.
  rewrite entry_set_entry_other by (intro E; inversion E; congruence).
  rewrite entry_set_entry_same by exact Hfrom. reflexivity.
Qed.

(** With [from_index = to_index] the two assignments cancel. *)
Lemma move_mass_self :
  from_index = to_index ->
  entry (Agg.move_mass M i from_index to_index amount) i from_index
  == entry M i from_index.
Proof.
  intro He. subst to_index. unfold Agg.move_mass.
  rewrite entry_set_entry_same by (rewrite length_row_set_entry; exact Hfrom).
  rewrite entry_set_entry_same by exact Hfrom. ring.
Qed.

Lemma move_mass_row_sum (i' : nat) :
  Qsum (row (Agg.move_mass M i from_index to_index amount) i') == Qsum (row M i').
Proof.
  destruct (Nat.eq_dec i i') as [<-|Hne].
  - unfold Agg.move_mass.
    rewrite Qsum_row_set_entry by (rewrite length_row_set_entry; exact Hto).
    rewrite Qsum_row_set_entry by exact Hfrom. ring.
  - rewrite move_mass_other_row by exact Hne. reflexivity.
Qed.

Lemma move_mass_total :
  total (Agg.move_mass M i from_index to_index amount) == total M.
Proof.
  assert (Hi : (i < length M)%nat) by (eapply row_in_range; exact Hfrom).
  unfold Agg.move_mass.
  set (A1 := set_entry M i from_index (entry M i from_index - amount)).
  assert (H1 : total A1 == total M - amount).
  { unfold A1, set_entry. rewrite total_list_set by exact Hi.
    rewrite Qsum_list_set by exact Hfrom. unfold entry. ring. }
  unfold set_entry at 1. rewrite total_list_set by (unfold A1; rewrite length_set_entry; exact Hi).
  rewrite Qsum_list_set by (unfold A1; rewrite length_row_set_entry; exact Hto).
  rewrite H1. unfold entry. ring.
Qed.

End MoveMass.

(** ** Candidates of the scoring step *)

Lemma argmin_from_range (l : list npfloat) (idx best_idx : nat) (best : npfloat) :
  (best_idx < idx)%nat -> (Agg.argmin_from l idx best_idx best < idx + length l)%nat.
Proof.
  revert idx best_idx best; induction l as [|x l IH]; intros idx bi best H; simpl.
  - lia.
  - destruct (Agg.argmin_better x best).
    + specialize (IH (S idx) idx x). lia.
    + specialize (IH (S idx) bi best). lia.
Qed.

Lemma np_argmin_range (l : list npfloat) :
  l <> [] -> (Agg.np_argmin l < length l)%nat.
Proof.
  destruct l as [|x l]; [congruence|]. intros _. simpl.
  pose proof (argmin_from_range l 1 0 x). lia.
Qed.

Lemma np_nonzero_range (v : vec) (c : nat) :
  In c (Agg.np_nonzero v) -> (c < length v)%nat /\ ~ nth c v 0 == 0.
Proof.
  unfold Agg.np_nonzero. rewrite filter_In, in_seq, negb_true_iff.
  intros [H1 H2]. split; [lia|]. apply Qeq_bool_neq. exact H2.
Qed.

Lemma insert_record_In (r x : Agg.cost_record) (l : list Agg.cost_record) :
  In x (Agg.insert_record r l) -> x = r \/ In x l.
Proof.
  induction l as [|y l IH]; simpl.
  - intros [<-|[]]. left. reflexivity.
  - destruct (Agg.sorts_before (Agg.cost_of y) (Agg.cost_of r)); simpl.
    + intros [<-|H]; [right; left; reflexivity|].
      destruct (IH H) as [->|Hin]; [left; reflexivity|right; right; exact Hin].
    + intros [<-|H]; [left; reflexivity|right; exact H].
Qed.

Lemma sort_by_cost_In (x : Agg.cost_record) (l : list Agg.cost_record) :
  In x (Agg.sort_by_cost l) -> In x l.
Proof.
  induction l as [|y l IH]; simpl; [tauto|].
  intro H. apply insert_record_In in H. destruct H as [->|H]; [left; reflexivity|].
  right. apply IH. exact H.
Qed.

(** A row of [costs] names a unit, a cluster where the unit has mass and a
    cluster of [range(k)]. *)
Lemma transfer_costs_In (self : Agg.t) (c : npfloat) (i j_old j_new : nat) :
  Agg.clusters self <> [] ->
  In (c, i, j_old, j_new) (Agg.transfer_costs self) ->
  (i < Agg.N self)%nat
  /\ (j_old < length (row (Agg.membership self) i))%nat
  /\ ~ entry (Agg.membership self) i j_old == 0
  /\ (j_new < Z.to_nat (Agg.k self))%nat
  /\ c = Agg._transfer_score self i j_old j_new.
Proof.
  intro Hk. unfold Agg.transfer_costs. rewrite in_flat_map. intros [i' [Hi H]].
  rewrite in_map_iff in H. destruct H as [j [E Hj]]. inversion E; subst; clear E.
  apply in_seq in Hi. apply np_nonzero_range in Hj. destruct Hj as [Hj1 Hj2].
  repeat split; try lia; try assumption.
  match goal with |- (Agg.np_argmin ?l < _)%nat =>
    pose proof (np_argmin_range l) as Hr end.
  rewrite length_map in Hr. unfold Agg.clusters in Hr. rewrite length_seq in Hr.
  fold (Agg.clusters self) in Hr.
  apply Hr. intro E. apply Hk. apply map_eq_nil in E. exact E.
Qed.

Lemma get_transfer_records_In (self : Agg.t) (recs : list Agg.transfer_record)
    (i j_old j_new : nat) :
  Agg._get_transfer_records self 1 = Some recs ->
  In (i, j_old, j_new) recs ->
  recs = [(i, j_old, j_new)]
  /\ (j_old < length (row (Agg.membership self) i))%nat
  /\ ~ entry (Agg.membership self) i j_old == 0
  /\ (j_new < Z.to_nat (Agg.k self))%nat.
Proof.
  unfold Agg._get_transfer_records. intros H Hin.
  destruct (Agg.clusters self) as [|c0 cl] eqn:Ecl; [discriminate|].
  destruct (Agg.transfer_costs self) as [|r0 costs] eqn:Ec; [discriminate|].
  remember (Agg.sort_by_cost (r0 :: costs)) as sorted eqn:Es.
  injection H as <-.
  destruct sorted as [|[[[c a] b] d] rest]; simpl in Hin; [contradiction|].
  destruct Hin as [E|[]]. inversion E; subst a b d; clear E.
  assert (Hin : In (c, i, j_old, j_new) (Agg.transfer_costs self)).
  { rewrite Ec. apply sort_by_cost_In. rewrite <- Es. left. reflexivity. }
  apply transfer_costs_In in Hin; [|rewrite Ecl; discriminate].
  simpl. tauto.
Qed.

(** ** One pass through the loop *)

Lemma update_centroids_fields (s : Agg.t) :
  Agg.membership (Agg._update_centroids s) = Agg.membership s
  /\ Agg.k (Agg._update_centroids s) = Agg.k s
  /\ Agg.Ti (Agg._update_centroids s) = Agg.Ti s
  /\ Agg.Tij (Agg._update_centroids s) = Agg.Tij s.
Proof. repeat split. Qed.

(** A pass that reaches the end of the body either left the membership as
    it was or executed exactly one transfer, between two clusters in range
    that [_is_transfer_possible] accepted. *)
Lemma loop_body_Continue (s s' : Agg.t) :
  Agg.loop_body s = Agg.Continue s' ->
  Agg.k s' = Agg.k s
  /\ (Agg.membership s' = Agg.membership s
      \/ exists i f t amount,
           (f < length (row (Agg.membership s) i))%nat
           /\ (t < Z.to_nat (Agg.k s))%nat
           /\ Agg._is_transfer_possible s f t = true
           /\ Agg.transfer_percent s i f t = Fin amount
           /\ Agg.membership s' = Agg.move_mass (Agg.membership s) i f t amount).
Proof.
  unfold Agg.loop_body.
  destruct (Agg._get_transfer_records s 1) as [recs|] eqn:Er; [|discriminate].
  destruct (Agg._no_transfer_possible recs); [discriminate|].
  destruct recs as [|[[i f] t] rest].
  - simpl. intro H. injection H as <-. split; [reflexivity|left; reflexivity].
  - destruct (get_transfer_records_In s _ i f t Er (or_introl eq_refl))
      as (E & Hf & _ & Ht).
    injection E as ->. simpl.
    destruct (Agg._is_transfer_possible s f t) eqn:Ep.
    + unfold Agg._transfer.
      destruct (Agg.transfer_percent s i f t) as [amount| | |] eqn:Ea; try discriminate.
      intro H. injection H as <-. split; [reflexivity|].
      right. exists i, f, t, amount. repeat split; assumption.
    + intro H. injection H as <-. split; [reflexivity|left; reflexivity].
Qed.

Lemma Qsum_one_hot (l a n : nat) :
  Qsum (map (fun c => if Nat.eqb c l then 1 else 0) (seq a n))
  == if (Nat.leb a l && Nat.ltb l (a + n))%bool then 1 else 0.
Proof.
  revert a; induction n as [|n IH]; intro a; simpl.
  - destruct (Nat.leb_spec a l), (Nat.ltb_spec l (a + 0)); simpl; try reflexivity; lia.
  - rewrite IH.
    destruct (Nat.eqb_spec a l), (Nat.leb_spec (S a) l), (Nat.ltb_spec l (S a + n)),
      (Nat.leb_spec a l), (Nat.ltb_spec l (a + S n)); simpl; try lia; reflexivity.
Qed.

(** The membership generated from labels in [range(k)] has rows that sum
    to 1. *)
Lemma seed_rows_sum_to_one (self : Agg.t) (cluster_centers : matrix) (kmeans_labels : list nat) :
  (forall j, (j < Agg.N self)%nat -> (nth j kmeans_labels O < Z.to_nat (Agg.k self))%nat) ->
  rows_sum_to_one (Agg.seed self cluster_centers kmeans_labels).
Proof.
  intros Hl i Hi. unfold Agg.seed in *. simpl in *.
  unfold Agg._generate_membership in *. simpl in *.
  rewrite length_map, length_seq in Hi. unfold row.
  rewrite (nth_map_seq _ _ _ _ Hi). unfold Agg.clusters. simpl.
  rewrite length_map, length_seq. split; [reflexivity|].
  rewrite Qsum_one_hot. specialize (Hl i Hi).
  destruct (Nat.leb_spec 0 (nth i kmeans_labels O)),
    (Nat.ltb_spec (nth i kmeans_labels O) (0 + Z.to_nat (Agg.k self)));
    simpl; try lia; reflexivity.
Qed.

Lemma loop_body_rows_sum_to_one (s s' : Agg.t) :
  rows_sum_to_one s -> Agg.loop_body s = Agg.Continue s' -> rows_sum_to_one s'.
Proof.
  intros Inv H. apply loop_body_Continue in H.
  destruct H as [Hk [Hm|(i & f & t & amount & Hf & Ht & _ & _ & Hm)]];
    unfold rows_sum_to_one in *; rewrite Hm, Hk.
  - exact Inv.
  - intros i' Hi'. rewrite move_mass_length in Hi'.
    assert (Hi : (i < length (Agg.membership s))%nat) by (eapply row_in_range; exact Hf).
    destruct (Inv i Hi) as [Hlen _]. destruct (Inv i' Hi') as [Hlen' Hsum'].
    rewrite move_mass_length_row. split; [exact Hlen'|].
    rewrite move_mass_row_sum; [exact Hsum'|exact Hf|lia].
Qed.

Lemma reachable_rows_sum_to_one (s0 s : Agg.t) :
  rows_sum_to_one s0 -> reachable s0 s -> rows_sum_to_one s.
Proof.
  intros H0 Hr. induction Hr as [|s s' _ IH Hb]; [exact H0|].
  eapply loop_body_rows_sum_to_one; eassumption.
Qed.

(** ** Conservation of mass *)

Lemma is_transfer_possible_distinct (self : Agg.t) (from_cluster to_cluster : nat) :
  Agg._is_transfer_possible self from_cluster to_cluster = true ->
  from_cluster <> to_cluster.
Proof.
  unfold Agg._is_transfer_possible, Qgtb. rewrite Qltb_lt. intros H ->.
  pose proof (tol_pos self) as Ht.
  assert (E : Qabs (nth to_cluster (Agg.Ti self) 0 - nth to_cluster (Agg.Ti self) 0) == 0).
  { rewrite Qabs_pos; [ring|]. apply Qle_minus_iff. ring_simplify. apply Qle_refl. }
  rewrite E in H. lra.
Qed.

Lemma transfer_inv (self self' : Agg.t) (i f t : nat) :
  Agg._transfer self i f t = Some self' ->
  exists amount,
    Agg.transfer_percent self i f t = Fin amount
    /\ self' = Agg.with_membership self
                 (Agg.move_mass (Agg.membership self) i f t amount).
Proof.
  unfold Agg._transfer.
  destruct (Agg.transfer_percent self i f t) as [amount| | |]; try discriminate.
  intro H. injection H as <-. exists amount. split; reflexivity.
Qed.

(** C1.  A transfer that [fit] executes (the clusters passed
    [_is_transfer_possible]) of amount [amount] lowers [M[i, j_old]] by
    exactly [amount], raises [M[i, j_new]] by exactly [amount] and changes no
    other entry, so every row sum and the total mass are unchanged; and from
    the membership generated from the hard clustering on, every row of [M]
    sums to 1 at the head of every iteration and after every transfer. *)
Theorem transfer_conserves_mass :
  (forall (self self' : Agg.t) (i j_old j_new : nat),
      (j_old < length (row (Agg.membership self) i))%nat ->
      (j_new < length (row (Agg.membership self) i))%nat ->
      Agg._is_transfer_possible self j_old j_new = true ->
      Agg._transfer self i j_old j_new = Some self' ->
      exists amount,
        Agg.transfer_percent self i j_old j_new = Fin amount
        /\ entry (Agg.membership self') i j_old
           == entry (Agg.membership self) i j_old - amount
        /\ entry (Agg.membership self') i j_new
           == entry (Agg.membership self) i j_new + amount
        /\ (forall i' c, (i', c) <> (i, j_old) -> (i', c) <> (i, j_new) ->
              entry (Agg.membership self') i' c = entry (Agg.membership self) i' c)
        /\ (forall i', Qsum (row (Agg.membership self') i')
                       == Qsum (row (Agg.membership self) i'))
        /\ total (Agg.membership self') == total (Agg.membership self))
  /\ (forall (self s : Agg.t) (cluster_centers : matrix) (kmeans_labels : list nat),
        (forall j, (j < Agg.N self)%nat ->
                   (nth j kmeans_labels O < Z.to_nat (Agg.k self))%nat) ->
        reachable (Agg.seed self cluster_centers kmeans_labels) s ->
        rows_sum_to_one s
        /\ (forall (s1 : Agg.t) (i j_old j_new : nat),
              (j_old < length (row (Agg.membership s) i))%nat ->
              (j_new < length (row (Agg.membership s) i))%nat ->
              Agg._transfer s i j_old j_new = Some s1 ->
              rows_sum_to_one s1)).
Proof.
  split.
  - intros self self' i f t Hf Ht Hp H.
    apply is_transfer_possible_distinct in Hp.
    apply transfer_inv in H. destruct H as (amount & Ha & ->).
    exists amount. simpl. split; [exact Ha|].
    split; [apply move_mass_from; assumption|].
    split; [apply move_mass_to; assumption|].
    split; [intros; apply move_mass_other; assumption|].
    split; [intro; apply move_mass_row_sum; assumption|].
    apply move_mass_total; assumption.
  - intros self s centers lbls Hl Hr.
    assert (Inv : rows_sum_to_one s).
    { eapply reachable_rows_sum_to_one; [|exact Hr].
      apply seed_rows_sum_to_one. exact Hl. }
    split; [exact Inv|].
    intros s1 i f t Hf Ht H. apply transfer_inv in H. destruct H as (amount & _ & ->).
    intros i' Hi'. simpl in *. rewrite move_mass_length in Hi'.
    rewrite move_mass_length_row. destruct (Inv i' Hi') as [Hlen Hsum].
    split; [exact Hlen|]. rewrite move_mass_row_sum; assumption.
Qed.

Lemma transfer_conserves_mass_witness :
  (exists amount,
      Agg.transfer_percent scenario 1 0 1 = Fin amount
      /\ total (Agg.move_mass (Agg.membership scenario) 1 0 1 amount)
         == total (Agg.membership scenario))
  /\ rows_sum_to_one scenario.
Proof.
  split.
  - destruct (Agg._transfer scenario 1 0 1) as [s'|] eqn:E; [|discriminate E].
    destruct (proj1 transfer_conserves_mass scenario s' 1%nat 0%nat 1%nat)
      as (amount & Ha & _ & _ & _ & _ & Ht).
    + simpl. lia.
    + simpl. lia.
    + vm_compute. reflexivity.
    + exact E.
    + exists amount. split; [exact Ha|].
      apply transfer_inv in E. destruct E as (a' & Ha' & ->).
      rewrite Ha in Ha'. injection Ha' as <-. exact Ht.
  - apply (proj2 transfer_conserves_mass
             (Agg.mk 2 9 [[0]; [1]; [10]; [11]] [[1]; [1]; [-1]; [-1]] [1]
                     1 4 [] [] [] [] [])
             scenario [[1 # 2]; [21 # 2]] [0; 0; 1; 1]%nat).
    + intros j Hj. simpl in Hj.
      destruct j as [|[|[|[|j]]]]; simpl; lia.
    + apply reach_seed.
Defined.

(** ** The amount of a transfer *)

Lemma py_min2_fin (a q : Q) : exists d, py_min (Fin a) [Fin q] = Fin d /\ d == Qmin a q.
Proof.
  unfold py_min. simpl. destruct (Qltb q a) eqn:E.
  - exists q. split; [reflexivity|]. apply Qltb_lt in E.
    symmetry. apply Q.min_r. apply Qlt_le_weak. exact E.
  - exists a. split; [reflexivity|]. apply Qltb_ge in E.
    symmetry. apply Q.min_l. exact E.
Qed.

Lemma py_max0_fin (q : Q) : exists d, py_max (Fin 0) (Fin q) = Fin d /\ d == Qmax 0 q.
Proof.
  unfold py_max, np_gtb. simpl. destruct (Qltb 0 q) eqn:E.
  - exists q. split; [reflexivity|]. apply Qltb_lt in E.
    symmetry. apply Q.max_r. apply Qlt_le_weak. exact E.
  - exists 0. split; [reflexivity|]. apply Qltb_ge in E.
    symmetry. apply Q.max_l. exact E.
Qed.

Lemma py_min3_fin (a b c : Q) :
  exists d, py_min (Fin a) [Fin b; Fin c] = Fin d /\ d == Qmin a (Qmin b c).
Proof.
  unfold py_min. simpl.
  destruct (Qltb b a) eqn:E1.
  - apply Qltb_lt in E1. destruct (Qltb c b) eqn:E2.
    + apply Qltb_lt in E2. exists c. split; [reflexivity|].
      rewrite (Q.min_r b c) by lra. rewrite Q.min_r by lra. reflexivity.
    + apply Qltb_ge in E2. exists b. split; [reflexivity|].
      rewrite (Q.min_l b c) by lra. rewrite Q.min_r by lra. reflexivity.
  - apply Qltb_ge in E1. destruct (Qltb c a) eqn:E2.
    + apply Qltb_lt in E2. exists c. split; [reflexivity|].
      rewrite (Q.min_r b c) by lra. rewrite Q.min_r by lra. reflexivity.
    + apply Qltb_ge in E2. exists a. split; [reflexivity|].
      destruct (Q.min_spec b c) as [[_ ->]|[_ ->]]; rewrite Q.min_l by lra; reflexivity.
Qed.

Lemma same_side_spec (self : Agg.t) (f t : nat) :
  Agg.same_side self f t = true <->
  (- Agg.tol self <= nth f (Agg.Ti self) 0 /\ - Agg.tol self <= nth t (Agg.Ti self) 0)
  \/ (nth f (Agg.Ti self) 0 <= Agg.tol self /\ nth t (Agg.Ti self) 0 <= Agg.tol self).
Proof.
  unfold Agg.same_side, Qgeb.
  rewrite orb_true_iff, !andb_true_iff, !Qle_bool_iff. reflexivity.
Qed.

(** C3.  When [Ti[j_old]] and [Ti[j_new]] are both at least [-10^-tau] or
    both at most [10^-tau], the amount that [_transfer] moves from
    [M[i, j_old]] to [M[i, j_new]] is the minimum of [M[i, j_old]] and the
    minimum feasible percent; otherwise it is the minimum of [M[i, j_old]],
    [max(0, zero_percent(i, j_old))] and [max(0, -zero_percent(i, j_new))].
    The percents are rational numbers because
    [sum_j w[j] * X[i, j]^2] is not zero. *)
Theorem transfer_amount_rule (self self' : Agg.t) (i j_old j_new : nat) :
  (j_old < length (row (Agg.membership self) i))%nat ->
  (j_new < length (row (Agg.membership self) i))%nat ->
  j_old <> j_new ->
  ~ Agg.aux_norm self i == 0 ->
  Agg._transfer self i j_old j_new = Some self' ->
  let same :=
    (- Agg.tol self <= nth j_old (Agg.Ti self) 0
     /\ - Agg.tol self <= nth j_new (Agg.Ti self) 0)
    \/ (nth j_old (Agg.Ti self) 0 <= Agg.tol self
        /\ nth j_new (Agg.Ti self) 0 <= Agg.tol self) in
  let moved := entry (Agg.membership self) i j_old - entry (Agg.membership self') i j_old in
  let minimum_percent :=
    Agg.aux_dot self i (vsub (row (Agg.Tij self) j_old) (row (Agg.Tij self) j_new))
    / (2 * Agg.aux_norm self i) in
  let zero_percent c := Agg.aux_dot self i (row (Agg.Tij self) c) / Agg.aux_norm self i in
  Agg._minimum_percent self i j_old j_new = Fin minimum_percent
  /\ (forall c, Agg._zero_percent self i c = Fin (zero_percent c))
  /\ entry (Agg.membership self') i j_new - entry (Agg.membership self) i j_new == moved
  /\ (same -> moved == Qmin (entry (Agg.membership self) i j_old) minimum_percent)
  /\ (~ same ->
      moved == Qmin (entry (Agg.membership self) i j_old)
                    (Qmin (Qmax 0 (zero_percent j_old)) (Qmax 0 (- zero_percent j_new)))).
Proof.
  intros Hf Ht Hne Hn H same moved mp zp.
  assert (Hmp : Agg._minimum_percent self i j_old j_new = Fin mp).
  { unfold Agg._minimum_percent. apply np_div_fin. intro E. apply Hn. lra. }
  assert (Hzp : forall c, Agg._zero_percent self i c = Fin (zp c)).
  { intro c. unfold Agg._zero_percent. apply np_div_fin. exact Hn. }
  apply transfer_inv in H. destruct H as (amount & Ha & ->).
  assert (Hmoved : moved == amount).
  { unfold moved. simpl. rewrite move_mass_from by assumption. ring. }
  split; [exact Hmp|]. split; [exact Hzp|].
  split; [simpl; rewrite move_mass_to by assumption; rewrite Hmoved; ring|].
  unfold Agg.transfer_percent in Ha. split.
  - intro Hs. apply same_side_spec in Hs. rewrite Hs, Hmp in Ha.
    destruct (py_min2_fin (entry (Agg.membership self) i j_old) mp) as (d & Hd & Hq).
    rewrite Hd in Ha. injection Ha as <-. rewrite Hmoved. exact Hq.
  - intro Hs. destruct (Agg.same_side self j_old j_new) eqn:Es.
    { exfalso. apply Hs. apply same_side_spec. exact Es. }
    rewrite !Hzp in Ha. simpl np_neg in Ha.
    destruct (py_max0_fin (zp j_old)) as (d1 & Hd1 & Hq1).
    destruct (py_max0_fin (- zp j_new)) as (d2 & Hd2 & Hq2).
    rewrite Hd1, Hd2 in Ha.
    destruct (py_min3_fin (entry (Agg.membership self) i j_old) d1 d2) as (d & Hd & Hq).
    rewrite Hd in Ha. injection Ha as <-. rewrite Hmoved, Hq, Hq1, Hq2. reflexivity.
Qed.

Lemma transfer_amount_rule_witness :
  exists self',
    Agg._transfer scenario 1 0 1 = Some self'
    /\ entry (Agg.membership self') 1 1 - entry (Agg.membership scenario) 1 1
       == entry (Agg.membership scenario) 1 0 - entry (Agg.membership self') 1 0.
Proof.
  destruct (Agg._transfer scenario 1 0 1) as [s'|] eqn:E; [|discriminate E].
  exists s'. split; [reflexivity|].
  destruct (transfer_amount_rule scenario s' 1%nat 0%nat 1%nat) as (_ & _ & H & _).
  - simpl. lia.
  - simpl. lia.
  - discriminate.
  - vm_compute. discriminate.
  - exact E.
  - exact H.
Defined.

(** ** The branch of clusters on opposite sides of zero *)

Lemma py_max0_cases (x : npfloat) :
  py_max (Fin 0) x = PInf \/ exists d, py_max (Fin 0) x = Fin d /\ 0 <= d.
Proof.
  destruct x as [q| | |]; unfold py_max, np_gtb; simpl.
  - right. destruct (Qltb 0 q) eqn:E.
    + exists q. split; [reflexivity|]. apply Qltb_lt in E. lra.
    + exists 0. split; [reflexivity|]. lra.
  - left. reflexivity.
  - right. exists 0. split; [reflexivity|]. lra.
  - right. exists 0. split; [reflexivity|]. lra.
Qed.

Lemma py_min_clamped (a : Q) (x y : npfloat) :
  (x = PInf \/ exists d, x = Fin d /\ 0 <= d) ->
  (y = PInf \/ exists d, y = Fin d /\ 0 <= d) ->
  exists d, py_min (Fin a) [x; y] = Fin d /\ d <= a /\ (0 <= a -> 0 <= d).
Proof.
  intros [->|(b & -> & Hb)] [->|(c & -> & Hc)]; unfold py_min; simpl.
  - exists a. repeat split; lra.
  - destruct (Qltb c a) eqn:E; [apply Qltb_lt in E|apply Qltb_ge in E];
      eexists; (split; [reflexivity|]); split; lra.
  - destruct (Qltb b a) eqn:E; [apply Qltb_lt in E|apply Qltb_ge in E]; simpl;
      eexists; (split; [reflexivity|]); split; lra.
  - destruct (Qltb b a) eqn:E1; [apply Qltb_lt in E1|apply Qltb_ge in E1]; simpl.
    + destruct (Qltb c b) eqn:E2; [apply Qltb_lt in E2|apply Qltb_ge in E2];
        eexists; (split; [reflexivity|]); split; lra.
    + destruct (Qltb c a) eqn:E2; [apply Qltb_lt in E2|apply Qltb_ge in E2];
        eexists; (split; [reflexivity|]); split; lra.
Qed.

Lemma same_side_refl (self : Agg.t) (c : nat) : Agg.same_side self c c = true.
Proof.
  apply same_side_spec. pose proof (tol_pos self) as Ht.
  destruct (Qlt_le_dec (nth c (Agg.Ti self) 0) 0); [right|left]; split; lra.
Qed.

(** C10.  In the branch of [_transfer] taken when the two clusters are on
    opposite sides of zero, the amount
    [min(M[i, j_old], max(0, zero_percent(i, j_old)), max(0, -zero_percent(i, j_new)))]
    is a number between 0 and [M[i, j_old]] whenever [M[i, j_old] >= 0], so
    the transfer leaves [M[i, j_old]] nonnegative and does not lower
    [M[i, j_new]]. *)
Theorem straddling_amount_bounded (self : Agg.t) (i j_old j_new : nat) :
  (j_old < length (row (Agg.membership self) i))%nat ->
  (j_new < length (row (Agg.membership self) i))%nat ->
  Agg.same_side self j_old j_new = false ->
  0 <= entry (Agg.membership self) i j_old ->
  exists amount self',
    Agg.transfer_percent self i j_old j_new = Fin amount
    /\ Agg.transfer_percent self i j_old j_new
       = py_min (Fin (entry (Agg.membership self) i j_old))
                [py_max (Fin 0) (Agg._zero_percent self i j_old);
                 py_max (Fin 0) (np_neg (Agg._zero_percent self i j_new))]
    /\ 0 <= amount
    /\ amount <= entry (Agg.membership self) i j_old
    /\ Agg._transfer self i j_old j_new = Some self'
    /\ 0 <= entry (Agg.membership self') i j_old
    /\ entry (Agg.membership self) i j_new <= entry (Agg.membership self') i j_new.
Proof.
  intros Hf Ht Hs Hm.
  assert (Hne : j_old <> j_new).
  { intros ->. rewrite same_side_refl in Hs. discriminate. }
  destruct (py_min_clamped (entry (Agg.membership self) i j_old) _ _
              (py_max0_cases (Agg._zero_percent self i j_old))
              (py_max0_cases (np_neg (Agg._zero_percent self i j_new))))
    as (d & Hd & Hle & Hge).
  assert (Ha : Agg.transfer_percent self i j_old j_new = Fin d).
  { unfold Agg.transfer_percent. rewrite Hs. exact Hd. }
  exists d. eexists. split; [exact Ha|].
  split; [unfold Agg.transfer_percent; rewrite Hs; reflexivity|].
  split; [apply Hge; exact Hm|]. split; [exact Hle|].
  unfold Agg._transfer. rewrite Ha. split; [reflexivity|]. simpl.
  rewrite move_mass_from, move_mass_to by assumption.
  specialize (Hge Hm). split; lra.
Qed.

Lemma straddling_amount_bounded_witness :
  exists amount self',
    Agg.transfer_percent scenario 1 0 1 = Fin amount
    /\ 0 <= amount
    /\ Agg._transfer scenario 1 0 1 = Some self'
    /\ 0 <= entry (Agg.membership self') 1 0.
Proof.
  destruct (straddling_amount_bounded scenario 1%nat 0%nat 1%nat)
    as (amount & s' & Ha & _ & H0 & _ & Ht & Hm & _).
  - simpl. lia.
  - simpl. lia.
  - vm_compute. reflexivity.
  - vm_compute. discriminate.
  - exists amount, s'. repeat split; assumption.
Defined.

(** ** The totals after a transfer *)

Lemma nth_map2 {A B C : Type} (g : A -> B -> C) (a : list A) (b : list B)
    (j : nat) (da : A) (db : B) (d : C) :
  (j < length a)%nat -> (j < length b)%nat ->
  nth j (map2 g a b) d = g (nth j a da) (nth j b db).
Proof.
  revert b j; induction a as [|x a IH]; intros [|y b] [|j] Ha Hb; simpl in *;
    try lia; auto.
  apply IH; lia.
Qed.

Lemma nth_column (A : matrix) (i c : nat) : nth i (column A c) 0 = entry A i c.
Proof.
  unfold column, entry, row.
  destruct (Nat.lt_ge_cases i (length A)) as [Hi|Hi].
  - rewrite (nth_indep _ 0 (nth c [] 0)) by (rewrite length_map; exact Hi).
    apply (map_nth (fun r => nth c r 0)).
  - rewrite (nth_overflow (map _ A)) by (rewrite length_map; exact Hi).
    rewrite (nth_overflow A) by exact Hi. destruct c; reflexivity.
Qed.

Lemma column_sum_move_mass (xs : vec) (M : matrix) (i f t c : nat) (amount : Q) :
  (i < length M)%nat -> length xs = length M ->
  Qsum (vmul xs (column (Agg.move_mass M i f t amount) c))
  == Qsum (vmul xs (column M c))
     + nth i xs 0 * (entry (Agg.move_mass M i f t amount) i c - entry M i c).
Proof.
  intros Hi Hlen. unfold Agg.move_mass.
  set (M1 := set_entry M i f (entry M i f - amount)).
  set (v := entry M1 i t + amount).
  assert (Hi1 : (i < length M1)%nat) by (unfold M1; rewrite length_set_entry; exact Hi).
  assert (Hlen1 : length xs = length M1) by (unfold M1; rewrite length_set_entry; exact Hlen).
  unfold set_entry at 1. rewrite (Qsum_column_list_set xs M1 i c _ Hi1 Hlen1).
  unfold M1 at 1. unfold set_entry at 1.
  rewrite (Qsum_column_list_set xs M i c _ Hi Hlen).
  assert (E1 : nth c (list_set (row M i) f (entry M i f - amount)) 0 = entry M1 i c).
  { unfold M1, entry at 2. rewrite row_set_entry_same by exact Hi. reflexivity. }
  assert (E2 : nth c (list_set (row M1 i) t v) 0 = entry (set_entry M1 i t v) i c).
  { unfold entry at 1. rewrite row_set_entry_same by exact Hi1. reflexivity. }
  rewrite E1, E2. ring.
Qed.

Lemma generate_Tij_row (self : Agg.t) (c : nat) :
  (c < Z.to_nat (Agg.k self))%nat ->
  row (Agg._generate_Tij self) c
  = map (fun j => Qsum (vmul (column (Agg.X_features self) j)
                             (column (Agg.membership self) c)))
        (seq 0 (Agg.m self)).
Proof.
  intro H. unfold row, Agg._generate_Tij, Agg.clusters.
  exact (nth_map_seq
           (fun c0 => map (fun j => Qsum (vmul (column (Agg.X_features self) j)
                                               (column (Agg.membership self) c0)))
                          (seq 0 (Agg.m self)))
           _ c [] H).
Qed.

Lemma generate_Tij_row_length (self : Agg.t) (c : nat) :
  (c < Z.to_nat (Agg.k self))%nat ->
  length (row (Agg._generate_Tij self) c) = Agg.m self.
Proof.
  intro H. rewrite generate_Tij_row by exact H. rewrite length_map, length_seq. reflexivity.
Qed.

Lemma generate_Ti_nth (self : Agg.t) (c : nat) :
  (c < Z.to_nat (Agg.k self))%nat ->
  nth c (Agg._generate_Ti self) 0
  = Qsum (vmul (Agg.weights self) (row (Agg._generate_Tij self) c)).
Proof.
  intro H. unfold Agg._generate_Ti, row.
  assert (Hlen : length (Agg._generate_Tij self) = Z.to_nat (Agg.k self)).
  { unfold Agg._generate_Tij, Agg.clusters. rewrite length_map, length_seq. reflexivity. }
  rewrite (nth_indep _ 0 (Qsum (vmul (Agg.weights self) [])))
    by (rewrite length_map, Hlen; exact H).
  apply (map_nth (fun r => Qsum (vmul (Agg.weights self) r))).
Qed.

(** Moving [amount] of unit [i] into or out of cluster [c] shifts row [c] of
    [Tij] by that change times the unit's auxiliary vector. *)
Lemma generate_Tij_move_mass (self : Agg.t) (i f t c : nat) (amount : Q) :
  well_shaped self -> (i < Agg.N self)%nat -> (c < Z.to_nat (Agg.k self))%nat ->
  let M' := Agg.move_mass (Agg.membership self) i f t amount in
  Forall2 Qeq
    (row (Agg._generate_Tij (Agg.with_membership self M')) c)
    (map2 (fun a y => a + (entry M' i c - entry (Agg.membership self) i c) * y)
          (row (Agg._generate_Tij self) c) (row (Agg.X_features self) i)).
Proof.
  intros (HX & HXr & Hw & HM & HMr) Hi Hc M'.
  assert (Hc' : (c < Z.to_nat (Agg.k (Agg.with_membership self M')))%nat) by exact Hc.
  apply Forall2_Qeq_nth.
  - rewrite length_map2, (generate_Tij_row_length _ _ Hc'), (generate_Tij_row_length _ _ Hc).
    rewrite (HXr i Hi). simpl. lia.
  - rewrite (generate_Tij_row_length _ _ Hc'). simpl. intros j Hj.
    rewrite (nth_map2 _ _ _ j 0 0 0)
      by (rewrite ?(generate_Tij_row_length _ _ Hc), ?(HXr i Hi); exact Hj).
    rewrite (generate_Tij_row _ _ Hc'), (generate_Tij_row _ _ Hc). simpl.
    rewrite !(nth_map_seq _ _ _ 0 Hj). unfold M'.
    assert (H1 : (i < length (Agg.membership self))%nat) by (rewrite HM; exact Hi).
    assert (H2 : length (column (Agg.X_features self) j) = length (Agg.membership self))
      by (unfold column; rewrite length_map; exact (eq_trans HX (eq_sym HM))).
    rewrite (column_sum_move_mass _ _ i f t c amount H1 H2).
    rewrite nth_column. unfold entry at 1. ring.
Qed.

Lemma aux_dot_ext (self : Agg.t) (i : nat) (v v' : vec) :
  Forall2 Qeq v v' -> Agg.aux_dot self i v == Agg.aux_dot self i v'.
Proof. intro H. unfold Agg.aux_dot. apply Qsum_ext, vmul_ext, H. Qed.

Lemma aux_dot_vsub (self : Agg.t) (i : nat) (b c : vec) :
  length b = length c ->
  Agg.aux_dot self i (vsub b c) == Agg.aux_dot self i b - Agg.aux_dot self i c.
Proof. intro H. unfold Agg.aux_dot. apply Qsum_vmul_vsub. exact H. Qed.

(** The weighted contribution of a cluster along the auxiliary vector of
    unit [i], after the move. *)
Lemma aux_dot_move_mass (self : Agg.t) (i f t c : nat) (amount : Q) :
  well_shaped self -> (i < Agg.N self)%nat -> (c < Z.to_nat (Agg.k self))%nat ->
  let M' := Agg.move_mass (Agg.membership self) i f t amount in
  Agg.aux_dot self i (row (Agg._generate_Tij (Agg.with_membership self M')) c)
  == Agg.aux_dot self i (row (Agg._generate_Tij self) c)
     + (entry M' i c - entry (Agg.membership self) i c) * Agg.aux_norm self i.
Proof.
  intros Hws Hi Hc M'. subst M'.
  etransitivity.
  { apply aux_dot_ext. apply (generate_Tij_move_mass self i f t c amount Hws Hi Hc). }
  destruct Hws as (HX & HXr & Hw & HM & HMr).
  unfold Agg.aux_dot, Agg.aux_norm.
  rewrite Qsum_vmul_axpy by (rewrite (generate_Tij_row_length _ _ Hc), (HXr i Hi); reflexivity).
  rewrite Qsum_vmul_vsq. reflexivity.
Qed.

(** C5.  When [sum_j w[j] * X[i, j]^2] is not zero, moving the minimum
    feasible percent of unit [i] from cluster [j_old] to a different cluster
    [j_new] makes the weighted contributions of the two clusters along the
    auxiliary vector of unit [i] equal, for the [Tij] generated from the
    updated membership. *)
Theorem minimum_percent_equalizes (self : Agg.t) (i j_old j_new : nat) :
  well_shaped self ->
  Agg.Tij self = Agg._generate_Tij self ->
  (i < Agg.N self)%nat ->
  (j_old < Z.to_nat (Agg.k self))%nat ->
  (j_new < Z.to_nat (Agg.k self))%nat ->
  j_old <> j_new ->
  ~ Agg.aux_norm self i == 0 ->
  exists amount,
    Agg._minimum_percent self i j_old j_new = Fin amount
    /\ let self' := Agg.with_membership self
                      (Agg.move_mass (Agg.membership self) i j_old j_new amount) in
       let Tij' := Agg._generate_Tij self' in
       Agg.aux_dot self i (row Tij' j_old) == Agg.aux_dot self i (row Tij' j_new).
Proof.
  intros Hws Hsync Hi Hf Ht Hne Hn.
  eexists. split.
  { unfold Agg._minimum_percent. apply np_div_fin. intro E. apply Hn. lra. }
  simpl.
  rewrite (aux_dot_move_mass self i j_old j_new j_old _ Hws Hi Hf).
  rewrite (aux_dot_move_mass self i j_old j_new j_new _ Hws Hi Ht).
  destruct Hws as (HX & HXr & Hw & HM & HMr).
  assert (Hfr : (j_old < length (row (Agg.membership self) i))%nat) by (rewrite HMr; assumption).
  assert (Htr : (j_new < length (row (Agg.membership self) i))%nat) by (rewrite HMr; assumption).
  rewrite move_mass_from, move_mass_to by assumption.
  rewrite Hsync.
  rewrite aux_dot_vsub
    by (rewrite !generate_Tij_row_length by assumption; reflexivity).
  field. intro E. apply Hn. lra.
Qed.

(** ** The imbalance of two clusters after a transfer *)

Ltac split_Qabs x :=
  destruct (Qlt_le_dec x 0);
  [rewrite (Qabs_neg x) by lra | rewrite (Qabs_pos x) by lra].

(** Two numbers that move towards each other, by at most half their
    distance, do not gain absolute value. *)
Lemma abs_sum_nonincreasing (A B s p d : Q) :
  0 < p -> 0 <= d -> d <= p -> A - B == 2 * s * p ->
  Qabs (A - d * s) + Qabs (B + d * s) <= Qabs A + Qabs B.
Proof.
  intros Hp Hd Hdp HAB.
  remember (d * s) as u eqn:Eu. remember (s * p) as v eqn:Ev.
  assert (Hv : A - B == 2 * v) by (rewrite Ev, HAB; ring).
  assert (Hu : (0 <= u /\ u <= v) \/ (v <= u /\ u <= 0)).
  { destruct (Qlt_le_dec s 0) as [Hs|Hs]; [right|left]; subst u v; split; nra. }
  clear Eu Ev HAB.
  split_Qabs (A - u); split_Qabs (B + u); split_Qabs A; split_Qabs B;
    destruct Hu as [[? ?]|[? ?]]; lra.
Qed.

(** [Ti] generated after a move: the change of the unit's mass in the
    cluster times the unit's weighted auxiliary total. *)
Lemma generate_Ti_move_mass (self : Agg.t) (i f t c : nat) (amount : Q) :
  well_shaped self -> (i < Agg.N self)%nat -> (c < Z.to_nat (Agg.k self))%nat ->
  let M' := Agg.move_mass (Agg.membership self) i f t amount in
  nth c (Agg._generate_Ti (Agg.with_membership self M')) 0
  == nth c (Agg._generate_Ti self) 0
     + (entry M' i c - entry (Agg.membership self) i c)
       * Qsum (vmul (Agg.weights self) (row (Agg.X_features self) i)).
Proof.
  intros Hws Hi Hc M'. subst M'.
  rewrite (generate_Ti_nth _ c) by exact Hc.
  rewrite (generate_Ti_nth self c) by exact Hc. simpl.
  etransitivity.
  { apply Qsum_ext, vmul_ext.
    apply (generate_Tij_move_mass self i f t c amount Hws Hi Hc). }
  destruct Hws as (HX & HXr & Hw & HM & HMr).
  apply Qsum_vmul_axpy.
  rewrite (generate_Tij_row_length _ _ Hc), (HXr i Hi). reflexivity.
Qed.

Lemma length_one {A : Type} (l : list A) : length l = 1%nat -> exists a, l = [a].
Proof.
  destruct l as [|a [|b l]]; simpl; try discriminate. intros _. exists a. reflexivity.
Qed.

(** C6, as the code has it.  With a single auxiliary variable ([m = 1]), a
    transfer with a finite score, taken from a nonnegative [M[i, j_old]] in
    the branch where [Ti[j_old]] and [Ti[j_new]] are on the same side of
    zero, does not increase [|Ti[j_old]| + |Ti[j_new]|], where [Ti] is
    generated again from the updated membership. *)
Theorem single_variable_monotone (self : Agg.t) (i j_old j_new : nat) (score : Q) :
  well_shaped self ->
  in_sync self ->
  Agg.m self = 1%nat ->
  (i < Agg.N self)%nat ->
  (j_old < Z.to_nat (Agg.k self))%nat ->
  (j_new < Z.to_nat (Agg.k self))%nat ->
  0 <= entry (Agg.membership self) i j_old ->
  Agg._transfer_score self i j_old j_new = Fin score ->
  Agg.same_side self j_old j_new = true ->
  exists self',
    Agg._transfer self i j_old j_new = Some self'
    /\ Qabs (nth j_old (Agg._generate_Ti self') 0)
       + Qabs (nth j_new (Agg._generate_Ti self') 0)
       <= Qabs (nth j_old (Agg.Ti self) 0) + Qabs (nth j_new (Agg.Ti self) 0).
Proof.
  intros Hws [HTij HTi] Hm Hi Hf Ht HM Hscore Hsame.
  pose proof Hws as (HX & HXr & Hw & HMl & HMr).
  pose proof (tol_pos self) as Htol.
  destruct (length_one (Agg.weights self)) as [w0 Ew]; [congruence|].
  destruct (length_one (row (Agg.X_features self) i)) as [x Ex];
    [rewrite HXr by exact Hi; exact Hm|].
  destruct (length_one (row (Agg._generate_Tij self) j_old)) as [a Ea];
    [rewrite generate_Tij_row_length by exact Hf; exact Hm|].
  destruct (length_one (row (Agg._generate_Tij self) j_new)) as [b Eb];
    [rewrite generate_Tij_row_length by exact Ht; exact Hm|].
  (* the feasibility test of the score *)
  unfold Agg._transfer_score in Hscore.
  destruct (np_gtb (Agg._minimum_percent self i j_old j_new) (Fin (Agg.tol self)))
    eqn:Hgate; [clear Hscore|discriminate].
  assert (Hnum : Agg.aux_dot self i
                   (vsub (row (Agg.Tij self) j_old) (row (Agg.Tij self) j_new))
                 == w0 * x * (a - b)).
  { unfold Agg.aux_dot. rewrite HTij, Ew, Ex, Ea, Eb. simpl. ring. }
  assert (Hnorm : Agg.aux_norm self i == w0 * (x * x)).
  { unfold Agg.aux_norm. rewrite Ew, Ex. simpl. ring. }
  assert (Hn : ~ Agg.aux_norm self i == 0).
  { intro E. unfold Agg._minimum_percent, np_div in Hgate.
    assert (E2 : Qeq_bool (2 * Agg.aux_norm self i) 0 = true)
      by (apply Qeq_bool_iff; rewrite E; ring).
    rewrite E2 in Hgate.
    assert (Hz : Agg.aux_dot self i
                   (vsub (row (Agg.Tij self) j_old) (row (Agg.Tij self) j_new)) == 0).
    { rewrite Hnum. rewrite Hnorm in E.
      destruct (Qmult_integral _ _ E) as [E0|E0]; [rewrite E0; ring|].
      destruct (Qmult_integral _ _ E0) as [E1|E1]; rewrite E1; ring. }
    assert (L1 : Qltb 0 (Agg.aux_dot self i
                   (vsub (row (Agg.Tij self) j_old) (row (Agg.Tij self) j_new))) = false)
      by (apply Qltb_ge; rewrite Hz; apply Qle_refl).
    assert (L2 : Qltb (Agg.aux_dot self i
                   (vsub (row (Agg.Tij self) j_old) (row (Agg.Tij self) j_new))) 0 = false)
      by (apply Qltb_ge; rewrite Hz; apply Qle_refl).
    rewrite L1, L2 in Hgate. discriminate. }
  assert (Hw0 : ~ w0 == 0) by (intro E; apply Hn; rewrite Hnorm, E; ring).
  assert (Hx : ~ x == 0) by (intro E; apply Hn; rewrite Hnorm, E; ring).
  set (p := Agg.aux_dot self i
              (vsub (row (Agg.Tij self) j_old) (row (Agg.Tij self) j_new))
            / (2 * Agg.aux_norm self i)).
  assert (Hmp : Agg._minimum_percent self i j_old j_new = Fin p).
  { unfold Agg._minimum_percent. apply np_div_fin. intro E. apply Hn. lra. }
  rewrite Hmp in Hgate. unfold np_gtb in Hgate. simpl in Hgate. apply Qltb_lt in Hgate.
  assert (Hp : p == (a - b) / (2 * x)).
  { unfold p. rewrite Hnum, Hnorm. field. split; assumption. }
  assert (Hne : j_old <> j_new).
  { intros E. subst j_new. rewrite Ea in Eb. injection Eb as <-.
    assert (p == 0) by (rewrite Hp; field; assumption). lra. }
  destruct (py_min2_fin (entry (Agg.membership self) i j_old) p) as (d & Hd & Hq).
  assert (Ha : Agg.transfer_percent self i j_old j_new = Fin d).
  { unfold Agg.transfer_percent. rewrite Hsame, Hmp. exact Hd. }
  assert (Hd0 : 0 <= d /\ d <= p).
  { rewrite Hq. split.
    - apply Q.min_glb; lra.
    - apply Q.le_min_r. }
  eexists. split; [unfold Agg._transfer; rewrite Ha; reflexivity|].
  assert (Hfr : (j_old < length (row (Agg.membership self) i))%nat) by (rewrite HMr; assumption).
  assert (Htr : (j_new < length (row (Agg.membership self) i))%nat) by (rewrite HMr; assumption).
  rewrite (generate_Ti_move_mass self i j_old j_new j_old d Hws Hi Hf).
  rewrite (generate_Ti_move_mass self i j_old j_new j_new d Hws Hi Ht).
  rewrite move_mass_from, move_mass_to by assumption.
  rewrite HTi, (generate_Ti_nth self j_old Hf), (generate_Ti_nth self j_new Ht).
  rewrite Ew, Ex, Ea, Eb. cbn [vmul map2 Qsum fold_right].
  pose proof (abs_sum_nonincreasing (w0 * a) (w0 * b) (w0 * x) p d) as Habs.
  assert (E1 : w0 * a + 0 + (entry (Agg.membership self) i j_old - d
                             - entry (Agg.membership self) i j_old) * (w0 * x + 0)
               == w0 * a - d * (w0 * x)) by ring.
  assert (E2 : w0 * b + 0 + (entry (Agg.membership self) i j_new + d
                             - entry (Agg.membership self) i j_new) * (w0 * x + 0)
               == w0 * b + d * (w0 * x)) by ring.
  assert (E3 : w0 * a + 0 == w0 * a) by ring.
  assert (E4 : w0 * b + 0 == w0 * b) by ring.
  rewrite E1, E2, E3, E4. apply Habs; try lra.
  rewrite Hp. field. assumption.
Qed.

Ltac first_rows :=
  repeat match goal with
         | H : (?i < S _)%nat |- _ => destruct i as [|i]; [|apply Nat.succ_lt_mono in H]
         | H : (_ < 0)%nat |- _ => inversion H
         end.

Lemma one_sided_well_shaped : well_shaped one_sided.
Proof.
  repeat split; try reflexivity; simpl; intros i Hi; first_rows; reflexivity.
Qed.

Lemma single_variable_monotone_witness :
  exists self',
    Agg._transfer one_sided 1 0 1 = Some self'
    /\ Qabs (nth 0 (Agg._generate_Ti self') 0) + Qabs (nth 1 (Agg._generate_Ti self') 0)
       <= Qabs (nth 0 (Agg.Ti one_sided) 0) + Qabs (nth 1 (Agg.Ti one_sided) 0).
Proof.
  destruct (Agg._transfer_score one_sided 1 0 1) as [score| | |] eqn:E;
    try (vm_compute in E; discriminate E).
  apply (single_variable_monotone one_sided 1%nat 0%nat 1%nat score).
  - exact one_sided_well_shaped.
  - split; reflexivity.
  - reflexivity.
  - simpl. lia.
  - simpl. lia.
  - simpl. lia.
  - vm_compute. discriminate.
  - exact E.
  - vm_compute. reflexivity.
Defined.

(** C6 fails with two auxiliary variables: the cheapest record of
    [crossing] has a finite score, its clusters are on the same side of zero,
    and executing it raises [|Ti[0]| + |Ti[1]|] from [11/2] to [13/2]. *)
Lemma transfer_can_increase_imbalance :
  Agg._get_transfer_records crossing 1 = Some [(0, 0, 1)%nat]
  /\ (exists score, Agg._transfer_score crossing 0 0 1 = Fin score)
  /\ Agg.same_side crossing 0 1 = true
  /\ Agg._is_transfer_possible crossing 0 1 = true
  /\ exists self',
       Agg._transfer crossing 0 0 1 = Some self'
       /\ Qabs (nth 0 (Agg.Ti crossing) 0) + Qabs (nth 1 (Agg.Ti crossing) 0)
          < Qabs (nth 0 (Agg._generate_Ti self') 0)
            + Qabs (nth 1 (Agg._generate_Ti self') 0).
Proof.
  split; [vm_compute; reflexivity|].
  split; [eexists; vm_compute; reflexivity|].
  split; [vm_compute; reflexivity|].
  split; [vm_compute; reflexivity|].
  eexists. split; [vm_compute; reflexivity|].
  vm_compute. reflexivity.
Qed.

(** ** Convergence and the scoring step *)

(** C7 fails in its second half: [converged] satisfies the stop condition,
    yet the scoring step gives unit 0 a finite score for the move from
    cluster 0 to cluster 1. *)
Lemma converged_state_has_finite_score :
  Agg._stop_codition converged (Agg.tolerance converged) = true
  /\ exists score, In (Fin score, 0%nat, 0%nat, 1%nat) (Agg.transfer_costs converged).
Proof.
  split; [vm_compute; reflexivity|].
  eexists. unfold Agg.transfer_costs. apply in_flat_map. exists 0%nat.
  split; [simpl; left; reflexivity|].
  vm_compute. left. reflexivity.
Qed.

(** C7, as the code has it.  When [max_c |Ti[c]| < 10^-tau] at the head of
    the loop, the loop ends at once and leaves the whole state, the
    membership included, as it was: the scoring step is not invoked.  In any
    state the scoring step gives a candidate the score [+inf] when its
    minimum feasible percent does not exceed [10^-tau]; the stop condition
    does not make that so for every candidate. *)
Theorem converged_loop_exits (self : Agg.t) (iter_ fuel : nat) :
  Agg._stop_codition self (Agg.tolerance self) = true ->
  Agg.while_loop (S fuel) self iter_ = Some (Agg.Finished self iter_)
  /\ (forall i j_old j_new,
        np_gtb (Agg._minimum_percent self i j_old j_new) (Fin (Agg.tol self)) = false ->
        Agg._transfer_score self i j_old j_new = PInf).
Proof.
  intro H. split.
  - simpl. rewrite H. reflexivity.
  - intros i f t Hg. unfold Agg._transfer_score. rewrite Hg. reflexivity.
Qed.

Lemma converged_loop_exits_witness :
  Agg.while_loop 101 converged 0 = Some (Agg.Finished converged 0).
Proof.
  apply (converged_loop_exits converged 0 100). vm_compute. reflexivity.
Defined.

(** ** The denominator of the score *)

(** C8 fails on the code: in [degenerate], whose weights are nonnegative,
    the score of moving unit 0 from cluster 0 to cluster 1 passes the
    feasibility gate and divides by a denominator that is exactly zero; numpy
    returns [inf] there. *)
Theorem score_denominator_can_vanish :
  Forall (fun w => 0 <= w) (Agg.weights degenerate)
  /\ np_gtb (Agg._minimum_percent degenerate 0 0 1) (Fin (Agg.tol degenerate)) = true
  /\ Agg.score_denominator degenerate 0 1 == 0
  /\ Agg._transfer_score degenerate 0 0 1 = PInf.
Proof.
  split; [repeat constructor; discriminate|].
  split; [vm_compute; reflexivity|].
  split; vm_compute; reflexivity.
Qed.

(** ** Centroids *)

(** C2 fails on the code: after the first pass through the loop on
    [scenario], cluster 1 holds the units at 1, 10 and 11, whose weighted
    mean is [22/3], and [_update_centroids] stores [22/4]. *)
Theorem centroids_not_weighted_mean :
  exists self',
    Agg.loop_body scenario = Agg.Continue self'
    /\ Qsum (column (Agg.membership self') 1) == 3
    /\ entry (Agg.centroids self') 1 0 == 22 # 4
    /\ weighted_mean self' 1 0 == 22 # 3
    /\ ~ entry (Agg.centroids self') 1 0 == weighted_mean self' 1 0.
Proof.
  eexists. split; [vm_compute; reflexivity|].
  split; [vm_compute; reflexivity|].
  split; [vm_compute; reflexivity|].
  split; [vm_compute; reflexivity|].
  vm_compute. discriminate.
Qed.

(** ** Validation of the input *)

(** C4 fails: on two-dimensional arrays whose shapes disagree and with a
    cluster count of zero, [fit] has called the hard-clustering routine. *)
Lemma fit_calls_clustering_on_bad_input :
  inconsistent_input 0 [[0]] [[1]; [2]] [1; 1]
  /\ fst (Agg.fit KMeans_rejects 0 None 9 [[0]] (Agg.Array2 [[1]; [2]]) [1; 1]) <> [].
Proof.
  split.
  - left. simpl. discriminate.
  - simpl. discriminate.
Qed.

(** C4, as the code has it.  [fit] has no check of the row counts of [X]
    and [Y], of the length of [w] or of the cluster count: on every
    two-dimensional [X], consistent with [Y], [w] and [k] or not, it calls
    the hard-clustering routine once, with [Y], the cluster count, the
    initial centroids and the tolerance as given, and ends with that
    routine's exception when it raises.  The one failure before the
    clustering call is the [IndexError] of [X_features.shape[1]] on an [X] of
    fewer than two dimensions. *)
Theorem fit_calls_clustering_first
    (KMeans : Agg.kmeans_call -> option (matrix * list nat))
    (k0 : Z) (initial_centroids : option matrix) (tolerance0 : Z)
    (Y : matrix) (w : vec) :
  let call := Agg.mk_call k0 initial_centroids ((10 # 1) ^ (- tolerance0)) Y in
  (forall X : matrix,
      fst (Agg.fit KMeans k0 initial_centroids tolerance0 Y (Agg.Array2 X) w) = [call]
      /\ snd (Agg.fit KMeans k0 initial_centroids tolerance0 Y (Agg.Array2 X) w)
         <> Agg.ShapeIndexError
      /\ (KMeans call = None ->
          snd (Agg.fit KMeans k0 initial_centroids tolerance0 Y (Agg.Array2 X) w)
          = Agg.KMeansError))
  /\ (forall v : vec,
        Agg.fit KMeans k0 initial_centroids tolerance0 Y (Agg.Array1 v) w
        = ([], Agg.ShapeIndexError))
  /\ (forall x : Q,
        Agg.fit KMeans k0 initial_centroids tolerance0 Y (Agg.Array0 x) w
        = ([], Agg.ShapeIndexError)).
Proof.
  intro call. split; [|split; reflexivity].
  intro X. unfold Agg.fit, Agg.bind, Agg.call_kmeans, Agg.ret, Agg.tol.
  cbn [fst snd Agg.tolerance]. fold call.
  destruct (KMeans call) as [[centers lbls]|]; cbn [fst snd app].
  - split; [reflexivity|]. split; [|discriminate].
    destruct (Agg.while_loop 101 _ 0); discriminate.
  - split; [reflexivity|]. split; [discriminate|reflexivity].
Qed.

Lemma fit_calls_clustering_first_witness :
  snd (Agg.fit KMeans_rejects 0 None 9 [[0]] (Agg.Array2 [[1]; [2]]) [1; 1])
  = Agg.KMeansError.
Proof.
  apply (proj1 (fit_calls_clustering_first KMeans_rejects 0 None 9 [[0]] [1; 1])
               [[1]; [2]]).
  reflexivity.
Defined.

(** ** Termination *)

Lemma while_loop_bounded (n : nat) :
  forall (self : Agg.t) (iter_ : nat),
    (100 - iter_ <= n)%nat ->
    exists o,
      (forall extra, Agg.while_loop (S n + extra) self iter_ = Some o)
      /\ (iter_ <= Agg.iterations o)%nat
      /\ (Agg.iterations o <= Nat.max iter_ 100)%nat.
Proof.
  induction n as [|n IH]; intros self iter_ Hn.
  - assert (E : Nat.ltb iter_ 100 = false) by (apply Nat.ltb_ge; lia).
    exists (Agg.Finished self iter_). simpl. rewrite E, andb_false_r.
    repeat split; auto; lia.
  - cbn [Nat.add Agg.while_loop].
    destruct (negb (Agg._stop_codition self (Agg.tolerance self)) && Nat.ltb iter_ 100)%bool
      eqn:Ec.
    + apply andb_true_iff in Ec. destruct Ec as [_ Hlt]. apply Nat.ltb_lt in Hlt.
      destruct (Agg.loop_body self) as [s'|s'| |].
      * destruct (IH s' (S iter_)) as (o & Ho & H1 & H2); [lia|].
        exists o. split; [exact Ho|]. split; lia.
      * exists (Agg.Finished s' iter_). simpl. repeat split; auto; lia.
      * exists (Agg.Raised iter_). simpl. repeat split; auto; lia.
      * exists (Agg.Unmodelled iter_). simpl. repeat split; auto; lia.
    + exists (Agg.Finished self iter_). simpl. repeat split; auto; lia.
Qed.

(** C9.  From every state the loop of [fit] ends after at most 100 passes
    through its body, whether or not the stop condition is ever met: 101
    tests of the loop condition are always enough, more change nothing, and
    [fit] itself always returns with [iter_ <= 100]. *)
Theorem while_loop_terminates :
  (forall self : Agg.t,
      exists o,
        (forall extra, Agg.while_loop (101 + extra) self 0 = Some o)
        /\ (Agg.iterations o <= 100)%nat)
  /\ (forall (KMeans : Agg.kmeans_call -> option (matrix * list nat))
             (k0 : Z) (initial_centroids : option matrix) (tolerance0 : Z)
             (Y : matrix) (X : Agg.ndarray) (w : vec),
        snd (Agg.fit KMeans k0 initial_centroids tolerance0 Y X w) <> Agg.OutOfFuel
        /\ (forall o,
              snd (Agg.fit KMeans k0 initial_centroids tolerance0 Y X w) = Agg.Ran o ->
              (Agg.iterations o <= 100)%nat)).
Proof.
  assert (L : forall self : Agg.t,
             exists o,
               (forall extra, Agg.while_loop (101 + extra) self 0 = Some o)
               /\ (Agg.iterations o <= 100)%nat).
  { intro self. destruct (while_loop_bounded 100 self 0) as (o & Ho & _ & H2); [lia|].
    exists o. split; [exact Ho|]. simpl in H2. exact H2. }
  split; [exact L|].
  intros KMeans k0 ic tol0 Y X w.
  destruct X as [x|v|X];
    try (cbn [Agg.fit Agg.ret snd]; split; [discriminate|intros o E; discriminate E]).
  unfold Agg.fit, Agg.bind, Agg.call_kmeans, Agg.ret. cbn [snd].
  destruct (KMeans _) as [[centers lbls]|]; cbn [snd].
  - match goal with |- context [Agg.while_loop 101 ?s 0] =>
      destruct (L s) as (o & Ho & Hle); specialize (Ho 0%nat);
      change (101 + 0)%nat with 101%nat in Ho; rewrite Ho end.
    split; [discriminate|]. intros o' E. injection E as <-. exact Hle.
  - split; [discriminate|]. intros o E. discriminate E.
Qed.

Lemma scenario_well_shaped : well_shaped scenario.
Proof.
  repeat split; try reflexivity; simpl; intros i Hi; first_rows; reflexivity.
Qed.

Lemma minimum_percent_equalizes_witness :
  exists amount,
    Agg._minimum_percent scenario 1 0 1 = Fin amount
    /\ let self' := Agg.with_membership scenario
                      (Agg.move_mass (Agg.membership scenario) 1 0 1 amount) in
       Agg.aux_dot scenario 1 (row (Agg._generate_Tij self') 0)
       == Agg.aux_dot scenario 1 (row (Agg._generate_Tij self') 1).
Proof.
  apply (minimum_percent_equalizes scenario 1%nat 0%nat 1%nat).
  - exact scenario_well_shaped.
  - reflexivity.
  - simpl. lia.
  - simpl. lia.
  - simpl. lia.
  - discriminate.
  - vm_compute. discriminate.
Defined.

(** * Further properties of the code *)

(** ** The exits of the loop *)

Lemma no_transfer_possible_false (transfer_records : list Agg.transfer_record) :
  Agg._no_transfer_possible transfer_records = false.
Proof. destruct transfer_records as [|[[i f] t] rest]; reflexivity. Qed.

Lemma loop_body_not_Break (self self' : Agg.t) : Agg.loop_body self <> Agg.Break self'.
Proof.
  unfold Agg.loop_body.
  destruct (Agg._get_transfer_records self 1) as [recs|]; [|discriminate].
  rewrite no_transfer_possible_false. destruct (Agg.run_records self recs); discriminate.
Qed.

(** [_no_transfer_possible] is never true: it reads column 0 of the integer
    array of records, which is the data index and not the cost, so the
    [break] of [fit] is never taken. *)
Theorem break_never_taken :
  (forall transfer_records, Agg._no_transfer_possible transfer_records = false)
  /\ (forall self self', Agg.loop_body self <> Agg.Break self').
Proof. split; [exact no_transfer_possible_false|exact loop_body_not_Break]. Qed.

Lemma while_loop_exit (fuel : nat) :
  forall (self self' : Agg.t) (iter_ n : nat),
    Agg.while_loop fuel self iter_ = Some (Agg.Finished self' n) ->
    reachable self self'
    /\ (iter_ <= n)%nat
    /\ (n <= Nat.max iter_ 100)%nat
    /\ (Agg._stop_codition self' (Agg.tolerance self') = true \/ (100 <= n)%nat).
Proof.
  induction fuel as [|fuel IH]; intros self self' iter_ n H; [discriminate|].
  cbn [Agg.while_loop] in H.
  destruct (negb (Agg._stop_codition self (Agg.tolerance self)) && Nat.ltb iter_ 100)%bool
    eqn:Ec.
  - apply andb_true_iff in Ec. destruct Ec as [_ Hlt]. apply Nat.ltb_lt in Hlt.
    destruct (Agg.loop_body self) as [s1|s1| |] eqn:Eb; try discriminate.
    + apply IH in H. destruct H as (Hr & Hle & Hub & Hex).
      split; [|split; [lia|split; [lia|exact Hex]]].
      clear - Hr Eb. induction Hr as [|s s2 _ IHr Hb].
      * eapply reach_iter; [apply reach_seed|exact Eb].
      * eapply reach_iter; [exact IHr|exact Hb].
    + exfalso. exact (loop_body_not_Break self s1 Eb).
  - injection H as <- <-. split; [apply reach_seed|]. split; [lia|]. split; [lia|].
    apply andb_false_iff in Ec. destruct Ec as [Ec|Ec].
    + left. apply negb_false_iff. exact Ec.
    + right. apply Nat.ltb_ge. exact Ec.
Qed.

(** When the loop of [fit] ends normally, either every [|Ti[c]|] is below
    [10^-tau] or [iter_] has reached the cap of 100: there is no third
    exit. *)
Theorem finished_balanced_or_capped (fuel : nat) (self self' : Agg.t) (n : nat) :
  Agg.while_loop fuel self 0 = Some (Agg.Finished self' n) ->
  (n <= 100)%nat
  /\ (Agg._stop_codition self' (Agg.tolerance self') = true \/ n = 100%nat).
Proof.
  intro H. pose proof (while_loop_exit fuel self self' 0 n H) as (_ & _ & Hub & Hex).
  simpl in Hub. split; [exact Hub|].
  destruct Hex as [Hs|Hc]; [left; exact Hs|right; lia].
Qed.

Lemma finished_balanced_or_capped_witness :
  (0 <= 100)%nat
  /\ (Agg._stop_codition converged (Agg.tolerance converged) = true \/ 0%nat = 100%nat).
Proof.
  apply (finished_balanced_or_capped 101 converged converged 0).
  vm_compute. reflexivity.
Defined.

(** ** What the loop keeps *)

(** The state after a pass that reaches the end of the body. *)
Lemma loop_body_Continue_state (s s' : Agg.t) :
  Agg.loop_body s = Agg.Continue s' ->
  s' = Agg._update_centroids s
  \/ exists i f t amount,
       (f < length (row (Agg.membership s) i))%nat
       /\ ~ entry (Agg.membership s) i f == 0
       /\ (t < Z.to_nat (Agg.k s))%nat
       /\ Agg._is_transfer_possible s f t = true
       /\ Agg.transfer_percent s i f t = Fin amount
       /\ s' = Agg._update_centroids
                 (regenerated
                    (Agg.with_membership s
                       (Agg.move_mass (Agg.membership s) i f t amount))).
Proof.
  unfold Agg.loop_body.
  destruct (Agg._get_transfer_records s 1) as [recs|] eqn:Er; [|discriminate].
  destruct (Agg._no_transfer_possible recs); [discriminate|].
  destruct recs as [|[[i f] t] rest].
  - simpl. intro H. injection H as <-. left. reflexivity.
  - destruct (get_transfer_records_In s _ i f t Er (or_introl eq_refl))
      as (E & Hf & Hnz & Ht).
    injection E as ->. cbn [Agg.run_records].
    destruct (Agg._is_transfer_possible s f t) eqn:Ep.
    + unfold Agg._transfer.
      destruct (Agg.transfer_percent s i f t) as [amount| | |] eqn:Ea; try discriminate.
      intro H. injection H as <-. right. exists i, f, t, amount.
      repeat split; assumption.
    + intro H. injection H as <-. left. reflexivity.
Qed.

Lemma move_mass_well_shaped (s : Agg.t) (i f t : nat) (amount : Q) :
  well_shaped s ->
  well_shaped (Agg._update_centroids
                 (regenerated
                    (Agg.with_membership s
                       (Agg.move_mass (Agg.membership s) i f t amount)))).
Proof.
  intros (HX & HXr & Hw & HM & HMr). unfold well_shaped. simpl.
  repeat split; try assumption.
  - rewrite move_mass_length. exact HM.
  - intros i' Hi'. rewrite move_mass_length_row. apply HMr. exact Hi'.
Qed.

Lemma loop_body_keeps (s s' : Agg.t) :
  well_shaped s -> in_sync s -> Agg.loop_body s = Agg.Continue s' ->
  well_shaped s' /\ in_sync s'.
Proof.
  intros Hws Hsync H. apply loop_body_Continue_state in H.
  destruct H as [->|(i & f & t & amount & _ & _ & _ & _ & _ & ->)].
  - split; [exact Hws|]. destruct Hsync as [H1 H2]. split; [exact H1|exact H2].
  - split; [apply move_mass_well_shaped; exact Hws|]. split; reflexivity.
Qed.

Lemma seed_well_shaped (self : Agg.t) (cluster_centers : matrix) (kmeans_labels : list nat) :
  length (Agg.X_features self) = Agg.N self ->
  (forall i, (i < Agg.N self)%nat -> length (row (Agg.X_features self) i) = Agg.m self) ->
  length (Agg.weights self) = Agg.m self ->
  well_shaped (Agg.seed self cluster_centers kmeans_labels).
Proof.
  intros HX HXr Hw. unfold well_shaped, Agg.seed. simpl.
  repeat split; try assumption.
  - unfold Agg._generate_membership. rewrite length_map, length_seq. reflexivity.
  - intros i Hi. unfold Agg._generate_membership, row. simpl.
    rewrite (nth_map_seq _ _ _ _ Hi). unfold Agg.clusters. simpl.
    rewrite length_map, length_seq. reflexivity.
Qed.

Lemma reachable_shape_sync (self s : Agg.t) (cluster_centers : matrix)
    (kmeans_labels : list nat) :
  length (Agg.X_features self) = Agg.N self ->
  (forall i, (i < Agg.N self)%nat -> length (row (Agg.X_features self) i) = Agg.m self) ->
  length (Agg.weights self) = Agg.m self ->
  reachable (Agg.seed self cluster_centers kmeans_labels) s ->
  well_shaped s /\ in_sync s.
Proof.
  intros HX HXr Hw Hr. induction Hr as [|s s' _ IH Hb].
  - split; [apply seed_well_shaped; assumption|split; reflexivity].
  - destruct IH as [H1 H2]. eapply loop_body_keeps; eassumption.
Qed.

(** At the head of every iteration of a run on arrays of matching shapes,
    the shapes still match and [Tij], [Ti] are the totals of the current
    membership: the loop never reads stale totals. *)
Theorem reachable_in_sync (self s : Agg.t) (cluster_centers : matrix)
    (kmeans_labels : list nat) :
  length (Agg.X_features self) = Agg.N self ->
  (forall i, (i < Agg.N self)%nat -> length (row (Agg.X_features self) i) = Agg.m self) ->
  length (Agg.weights self) = Agg.m self ->
  reachable (Agg.seed self cluster_centers kmeans_labels) s ->
  well_shaped s /\ in_sync s.
Proof. exact (reachable_shape_sync self s cluster_centers kmeans_labels). Qed.

Lemma reachable_in_sync_witness : well_shaped scenario /\ in_sync scenario.
Proof.
  apply (reachable_in_sync
           (Agg.mk 2 9 [[0]; [1]; [10]; [11]] [[1]; [1]; [-1]; [-1]] [1]
                   1 4 [] [] [] [] [])
           scenario [[1 # 2]; [21 # 2]] [0; 0; 1; 1]%nat).
  - reflexivity.
  - simpl. intros i Hi. first_rows; reflexivity.
  - reflexivity.
  - apply reach_seed.
Defined.

(** The state that [fit] returns has one membership row per unit, each
    with one entry per cluster and summing to 1, provided the hard clustering
    returned labels in [range(k)]. *)
Theorem fit_result_rows_sum_to_one
    (KMeans : Agg.kmeans_call -> option (matrix * list nat))
    (k0 : Z) (initial_centroids : option matrix) (tolerance0 : Z)
    (Y X : matrix) (w : vec) (cluster_centers : matrix) (kmeans_labels : list nat)
    (self' : Agg.t) (n : nat) :
  KMeans (Agg.mk_call k0 initial_centroids ((10 # 1) ^ (- tolerance0)) Y)
  = Some (cluster_centers, kmeans_labels) ->
  (forall j, (j < length X)%nat -> (nth j kmeans_labels O < Z.to_nat k0)%nat) ->
  snd (Agg.fit KMeans k0 initial_centroids tolerance0 Y (Agg.Array2 X) w)
  = Agg.Ran (Agg.Finished self' n) ->
  length (Agg.membership self') = length X
  /\ Agg.k self' = k0
  /\ rows_sum_to_one self'.
Proof.
  intros HK Hl. unfold Agg.fit, Agg.bind, Agg.call_kmeans, Agg.ret, Agg.tol. cbn [snd Agg.tolerance].
  rewrite HK. cbn [snd].
  match goal with |- context [Agg.while_loop 101 ?s0 0] => set (s0' := s0) end.
  destruct (Agg.while_loop 101 s0' 0) as [o|] eqn:E; [|discriminate].
  intro H. injection H as ->.
  apply while_loop_exit in E. destruct E as (Hr & _).
  assert (Inv : rows_sum_to_one s0') by (apply seed_rows_sum_to_one; exact Hl).
  assert (Hlen : length (Agg.membership s0') = length X).
  { unfold s0', Agg.seed, Agg._generate_membership. simpl.
    rewrite length_map, length_seq. reflexivity. }
  assert (G : length (Agg.membership self') = length (Agg.membership s0')
              /\ Agg.k self' = Agg.k s0').
  { clear - Hr. induction Hr as [|s s' _ IH Hb]; [split; reflexivity|].
    apply loop_body_Continue in Hb.
    destruct Hb as [Hk [Hm|(i & f & t & amount & _ & _ & _ & _ & Hm)]];
      rewrite Hm, Hk, ?move_mass_length; exact IH. }
  destruct G as [G1 G2]. split; [rewrite G1; exact Hlen|]. split; [exact G2|].
  eapply reachable_rows_sum_to_one; eassumption.
Qed.

Lemma fit_result_rows_sum_to_one_witness :
  exists self',
    length (Agg.membership self') = 2%nat
    /\ Agg.k self' = 2%Z
    /\ rows_sum_to_one self'.
Proof.
  exists converged.
  apply (fit_result_rows_sum_to_one (KMeans_returns [[0]; [10]] [0; 1]%nat)
           2 None 9 [[0]; [10]] [[1; -1]; [-1; 1]] [1; 1]
           [[0]; [10]] [0; 1]%nat converged 0).
  - reflexivity.
  - simpl. intros j Hj. first_rows; simpl; lia.
  - vm_compute. reflexivity.
Defined.

(** ** What a transfer does to the totals *)

Lemma Forall2_Qeq_nth_inv (l l' : vec) (j : nat) :
  Forall2 Qeq l l' -> nth j l 0 == nth j l' 0.
Proof.
  intro H. revert j. induction H as [|x y l l' Hxy _ IH]; intros [|j]; simpl;
    try reflexivity; auto.
Qed.

(** A transfer between two different clusters shifts [Ti[j_old]] down and
    [Ti[j_new]] up by the amount times the unit's weighted auxiliary total
    [sum_j w[j] * X[i, j]]; their sum and every other [Ti[c]] are kept. *)
Theorem transfer_shifts_Ti (self self' : Agg.t) (i j_old j_new : nat) :
  well_shaped self ->
  (i < Agg.N self)%nat ->
  (j_old < Z.to_nat (Agg.k self))%nat ->
  (j_new < Z.to_nat (Agg.k self))%nat ->
  j_old <> j_new ->
  Agg._transfer self i j_old j_new = Some self' ->
  exists amount,
    Agg.transfer_percent self i j_old j_new = Fin amount
    /\ let share := Qsum (vmul (Agg.weights self) (row (Agg.X_features self) i)) in
       let Ti0 := Agg._generate_Ti self in
       let Ti1 := Agg._generate_Ti self' in
       nth j_old Ti1 0 == nth j_old Ti0 0 - amount * share
       /\ nth j_new Ti1 0 == nth j_new Ti0 0 + amount * share
       /\ nth j_old Ti1 0 + nth j_new Ti1 0 == nth j_old Ti0 0 + nth j_new Ti0 0
       /\ (forall c, (c < Z.to_nat (Agg.k self))%nat -> c <> j_old -> c <> j_new ->
             nth c Ti1 0 == nth c Ti0 0).
Proof.
  intros Hws Hi Hf Ht Hne H.
  apply transfer_inv in H. destruct H as (amount & Ha & ->).
  exists amount. split; [exact Ha|]. cbv zeta.
  pose proof Hws as (HX & HXr & Hw & HM & HMr).
  assert (Hfr : (j_old < length (row (Agg.membership self) i))%nat) by (rewrite HMr; assumption).
  assert (Htr : (j_new < length (row (Agg.membership self) i))%nat) by (rewrite HMr; assumption).
  assert (E1 := generate_Ti_move_mass self i j_old j_new j_old amount Hws Hi Hf).
  assert (E2 := generate_Ti_move_mass self i j_old j_new j_new amount Hws Hi Ht).
  cbv zeta in E1, E2.
  rewrite move_mass_from in E1 by assumption.
  rewrite move_mass_to in E2 by assumption.
  split; [rewrite E1; ring|]. split; [rewrite E2; ring|]. split; [rewrite E1, E2; ring|].
  intros c Hc H1 H2.
  assert (E3 := generate_Ti_move_mass self i j_old j_new c amount Hws Hi Hc).
  cbv zeta in E3.
  rewrite move_mass_other in E3 by (intro E; inversion E; congruence).
  rewrite E3. ring.
Qed.

Lemma transfer_shifts_Ti_witness :
  exists self' amount,
    Agg._transfer scenario 1 0 1 = Some self'
    /\ Agg.transfer_percent scenario 1 0 1 = Fin amount
    /\ nth 0 (Agg._generate_Ti self') 0 + nth 1 (Agg._generate_Ti self') 0
       == nth 0 (Agg._generate_Ti scenario) 0 + nth 1 (Agg._generate_Ti scenario) 0.
Proof.
  destruct (Agg._transfer scenario 1 0 1) as [s'|] eqn:E; [|discriminate E].
  destruct (transfer_shifts_Ti scenario s' 1%nat 0%nat 1%nat)
    as (amount & Ha & _ & _ & Hsum & _).
  - exact scenario_well_shaped.
  - simpl. lia.
  - simpl. lia.
  - simpl. lia.
  - discriminate.
  - exact E.
  - exists s', amount. repeat split; assumption.
Defined.

(** A transfer between two different clusters shifts row [j_old] of [Tij]
    down and row [j_new] up by the amount times the unit's auxiliary vector,
    entry by entry, and keeps every other row. *)
Theorem transfer_shifts_Tij (self self' : Agg.t) (i j_old j_new : nat) :
  well_shaped self ->
  (i < Agg.N self)%nat ->
  (j_old < Z.to_nat (Agg.k self))%nat ->
  (j_new < Z.to_nat (Agg.k self))%nat ->
  j_old <> j_new ->
  Agg._transfer self i j_old j_new = Some self' ->
  exists amount,
    Agg.transfer_percent self i j_old j_new = Fin amount
    /\ forall j, (j < Agg.m self)%nat ->
         entry (Agg._generate_Tij self') j_old j
         == entry (Agg._generate_Tij self) j_old j - amount * entry (Agg.X_features self) i j
         /\ entry (Agg._generate_Tij self') j_new j
            == entry (Agg._generate_Tij self) j_new j + amount * entry (Agg.X_features self) i j
         /\ (forall c, (c < Z.to_nat (Agg.k self))%nat -> c <> j_old -> c <> j_new ->
               entry (Agg._generate_Tij self') c j == entry (Agg._generate_Tij self) c j).
Proof.
  intros Hws Hi Hf Ht Hne H.
  apply transfer_inv in H. destruct H as (amount & Ha & ->).
  exists amount. split; [exact Ha|]. intros j Hj.
  pose proof Hws as (HX & HXr & Hw & HM & HMr).
  assert (Hfr : (j_old < length (row (Agg.membership self) i))%nat) by (rewrite HMr; assumption).
  assert (Htr : (j_new < length (row (Agg.membership self) i))%nat) by (rewrite HMr; assumption).
  assert (G : forall c, (c < Z.to_nat (Agg.k self))%nat ->
            entry (Agg._generate_Tij
                     (Agg.with_membership self
                        (Agg.move_mass (Agg.membership self) i j_old j_new amount))) c j
            == entry (Agg._generate_Tij self) c j
               + (entry (Agg.move_mass (Agg.membership self) i j_old j_new amount) i c
                  - entry (Agg.membership self) i c) * entry (Agg.X_features self) i j).
  { intros c Hc.
    pose proof (generate_Tij_move_mass self i j_old j_new c amount Hws Hi Hc) as F.
    cbv zeta in F. unfold entry at 1.
    assert (Hlen : (j < length (row (Agg._generate_Tij self) c))%nat)
      by (rewrite generate_Tij_row_length by exact Hc; exact Hj).
    assert (Hlx : (j < length (row (Agg.X_features self) i))%nat)
      by (rewrite HXr by exact Hi; exact Hj).
    rewrite (Forall2_Qeq_nth_inv _ _ j F).
    rewrite (nth_map2 _ _ _ j 0 0 0) by assumption.
    unfold entry. reflexivity. }
  split; [rewrite (G j_old Hf), move_mass_from by assumption; ring|].
  split; [rewrite (G j_new Ht), move_mass_to by assumption; ring|].
  intros c Hc H1 H2. rewrite (G c Hc).
  rewrite move_mass_other by (intro E; inversion E; congruence). ring.
Qed.

Lemma transfer_shifts_Tij_witness :
  exists self' amount,
    Agg._transfer scenario 1 0 1 = Some self'
    /\ Agg.transfer_percent scenario 1 0 1 = Fin amount
    /\ entry (Agg._generate_Tij self') 0 0
       == entry (Agg._generate_Tij scenario) 0 0 - amount * entry (Agg.X_features scenario) 1 0.
Proof.
  destruct (Agg._transfer scenario 1 0 1) as [s'|] eqn:E; [|discriminate E].
  destruct (transfer_shifts_Tij scenario s' 1%nat 0%nat 1%nat) as (amount & Ha & H).
  - exact scenario_well_shaped.
  - simpl. lia.
  - simpl. lia.
  - simpl. lia.
  - discriminate.
  - exact E.
  - exists s', amount. split; [reflexivity|]. split; [exact Ha|].
    apply (H 0%nat). simpl. lia.
Defined.

(** ** Feasibility *)

Lemma aux_dot_vsub_self (self : Agg.t) (i : nat) (r : vec) :
  Agg.aux_dot self i (vsub r r) == 0.
Proof.
  unfold Agg.aux_dot, vmul, vsub.
  generalize (map2 Qmult (Agg.weights self) (row (Agg.X_features self) i)).
  intro a. revert a. induction r as [|x r IH]; intros [|a0 a]; simpl; try reflexivity.
  rewrite IH. ring.
Qed.

Lemma aux_dot_vsub_swap (self : Agg.t) (i : nat) (r r' : vec) :
  Agg.aux_dot self i (vsub r r') == - Agg.aux_dot self i (vsub r' r).
Proof.
  unfold Agg.aux_dot, vmul, vsub.
  generalize (map2 Qmult (Agg.weights self) (row (Agg.X_features self) i)).
  intro a. revert a r'. induction r as [|x r IH]; intros [|a0 a] [|y r']; simpl;
    try reflexivity.
  rewrite IH. ring.
Qed.

Lemma feasible_self (self : Agg.t) (i j : nat) : feasible self i j j = false.
Proof.
  unfold feasible, Agg._minimum_percent, np_div, np_gtb.
  pose proof (aux_dot_vsub_self self i (row (Agg.Tij self) j)) as Hz.
  pose proof (tol_pos self) as Ht.
  destruct (Qeq_bool (2 * Agg.aux_norm self i) 0).
  - assert (L1 : Qltb 0 (Agg.aux_dot self i
                   (vsub (row (Agg.Tij self) j) (row (Agg.Tij self) j))) = false)
      by (apply Qltb_ge; rewrite Hz; apply Qle_refl).
    assert (L2 : Qltb (Agg.aux_dot self i
                   (vsub (row (Agg.Tij self) j) (row (Agg.Tij self) j))) 0 = false)
      by (apply Qltb_ge; rewrite Hz; apply Qle_refl).
    rewrite L1, L2. reflexivity.
  - simpl. apply Qltb_ge. rewrite Hz. unfold Qdiv. rewrite Qmult_0_l.
    apply Qlt_le_weak. exact Ht.
Qed.

(** Staying in the same cluster is never a candidate: the score of
    [j_new = j_old] is [+inf] in every state, the minimum feasible percent
    being 0 (or NaN for a unit without auxiliary weight). *)
Theorem self_candidate_infeasible (self : Agg.t) (i j : nat) :
  feasible self i j j = false /\ Agg._transfer_score self i j j = PInf.
Proof.
  pose proof (feasible_self self i j) as F.
  split; [exact F|]. unfold Agg._transfer_score. unfold feasible in F. rewrite F.
  reflexivity.
Qed.

(** For a unit and a pair of clusters at most one direction passes the
    feasibility gate: the minimum feasible percent changes sign when the two
    clusters are exchanged. *)
Theorem feasible_one_direction (self : Agg.t) (i a b : nat) :
  feasible self i a b = true -> feasible self i b a = false.
Proof.
  unfold feasible, Agg._minimum_percent, np_div, np_gtb.
  pose proof (aux_dot_vsub_swap self i (row (Agg.Tij self) a) (row (Agg.Tij self) b)) as Hs.
  pose proof (tol_pos self) as Ht.
  set (u := Agg.aux_dot self i (vsub (row (Agg.Tij self) a) (row (Agg.Tij self) b))) in *.
  set (v := Agg.aux_dot self i (vsub (row (Agg.Tij self) b) (row (Agg.Tij self) a))) in *.
  destruct (Qeq_bool (2 * Agg.aux_norm self i) 0) eqn:Ed.
  - destruct (Qltb 0 u) eqn:E1.
    + intros _. apply Qltb_lt in E1.
      assert (L1 : Qltb 0 v = false) by (apply Qltb_ge; lra).
      assert (L2 : Qltb v 0 = true) by (apply Qltb_lt; lra).
      rewrite L1, L2. reflexivity.
    + destruct (Qltb u 0); simpl; discriminate.
  - simpl. rewrite !Qltb_lt, Qltb_ge. intro H.
    apply Qeq_bool_neq in Ed.
    assert (E : v / (2 * Agg.aux_norm self i) == - (u / (2 * Agg.aux_norm self i))).
    { rewrite Hs. field_simplify_eq; [ring|]. intro E. apply Ed. lra. }
    rewrite E. lra.
Qed.

Lemma feasible_one_direction_witness : feasible one_sided 3 1 0 = false.
Proof.
  apply (feasible_one_direction one_sided 3 0 1). vm_compute. reflexivity.
Defined.

(** A candidate that passes the feasibility gate is executed with an amount
    between 0 and [M[i, j_old]], in either branch of [_transfer]: from a
    membership without negative entries it leaves one without negative
    entries. *)
Theorem feasible_transfer_keeps_nonnegative (self : Agg.t) (i j_old j_new : nat) :
  nonnegative (Agg.membership self) ->
  (j_old < length (row (Agg.membership self) i))%nat ->
  (j_new < length (row (Agg.membership self) i))%nat ->
  feasible self i j_old j_new = true ->
  exists amount self',
    Agg.transfer_percent self i j_old j_new = Fin amount
    /\ 0 <= amount
    /\ amount <= entry (Agg.membership self) i j_old
    /\ Agg._transfer self i j_old j_new = Some self'
    /\ nonnegative (Agg.membership self').
Proof.
  intros Hnn Hf Ht Hfeas.
  assert (Hne : j_old <> j_new).
  { intros ->. rewrite feasible_self in Hfeas. discriminate. }
  pose proof (tol_pos self) as Htol.
  assert (Ha : exists d, Agg.transfer_percent self i j_old j_new = Fin d
                         /\ 0 <= d /\ d <= entry (Agg.membership self) i j_old).
  { unfold Agg.transfer_percent. destruct (Agg.same_side self j_old j_new).
    - unfold feasible, np_gtb in Hfeas.
      destruct (Agg._minimum_percent self i j_old j_new) as [q| | |];
        try discriminate; unfold py_min; simpl.
      + simpl in Hfeas. apply Qltb_lt in Hfeas. specialize (Hnn i j_old).
        destruct (Qltb q (entry (Agg.membership self) i j_old)) eqn:E;
          [apply Qltb_lt in E|apply Qltb_ge in E]; eexists; (split; [reflexivity|]);
          split; lra.
      + eexists. split; [reflexivity|]. specialize (Hnn i j_old). split; lra.
    - destruct (py_min_clamped (entry (Agg.membership self) i j_old) _ _
                  (py_max0_cases (Agg._zero_percent self i j_old))
                  (py_max0_cases (np_neg (Agg._zero_percent self i j_new))))
        as (d & Hd & Hle & Hge).
      exists d. split; [exact Hd|]. split; [apply Hge, Hnn|exact Hle]. }
  destruct Ha as (d & Ha & Hd0 & Hd1).
  exists d. eexists. split; [exact Ha|]. split; [exact Hd0|]. split; [exact Hd1|].
  unfold Agg._transfer. rewrite Ha. split; [reflexivity|]. simpl.
  intros i' c.
  destruct (Nat.eq_dec i' i) as [->|Hi'].
  - destruct (Nat.eq_dec c j_old) as [->|Hc1].
    + rewrite move_mass_from by assumption. lra.
    + destruct (Nat.eq_dec c j_new) as [->|Hc2].
      * rewrite move_mass_to by assumption. specialize (Hnn i j_new). lra.
      * rewrite move_mass_other by (intro E; inversion E; congruence). apply Hnn.
  - rewrite move_mass_other by (intro E; inversion E; congruence). apply Hnn.
Qed.

(** The entries of the seeded membership. *)
Lemma seed_entry (self : Agg.t) (cluster_centers : matrix) (kmeans_labels : list nat)
    (i c : nat) :
  entry (Agg.membership (Agg.seed self cluster_centers kmeans_labels)) i c
  = if (Nat.ltb i (Agg.N self) && Nat.ltb c (Z.to_nat (Agg.k self)))%bool
    then (if Nat.eqb c (nth i kmeans_labels O) then 1 else 0)
    else 0.
Proof.
  unfold Agg.seed, entry, row. simpl. unfold Agg._generate_membership, Agg.clusters. simpl.
  destruct (Nat.ltb_spec i (Agg.N self)) as [Hi|Hi]; simpl.
  - rewrite (nth_map_seq _ _ _ _ Hi).
    destruct (Nat.ltb_spec c (Z.to_nat (Agg.k self))) as [Hc|Hc].
    + rewrite (nth_map_seq _ _ _ _ Hc). reflexivity.
    + apply nth_overflow. rewrite length_map, length_seq. exact Hc.
  - rewrite (nth_overflow (map _ _)) by (rewrite length_map, length_seq; exact Hi).
    destruct c; reflexivity.
Qed.

Lemma seed_nonnegative (self : Agg.t) (cluster_centers : matrix) (kmeans_labels : list nat) :
  nonnegative (Agg.membership (Agg.seed self cluster_centers kmeans_labels)).
Proof.
  intros i c. rewrite seed_entry.
  destruct (Nat.ltb i (Agg.N self) && Nat.ltb c (Z.to_nat (Agg.k self)))%bool;
    [destruct (Nat.eqb c (nth i kmeans_labels O))|]; lra.
Qed.

Lemma scenario_nonnegative : nonnegative (Agg.membership scenario).
Proof. apply seed_nonnegative. Qed.

Lemma feasible_transfer_keeps_nonnegative_witness :
  exists amount self',
    Agg.transfer_percent scenario 1 0 1 = Fin amount
    /\ 0 <= amount
    /\ amount <= entry (Agg.membership scenario) 1 0
    /\ Agg._transfer scenario 1 0 1 = Some self'
    /\ nonnegative (Agg.membership self').
Proof.
  apply (feasible_transfer_keeps_nonnegative scenario 1 0 1).
  - exact scenario_nonnegative.
  - simpl. lia.
  - simpl. lia.
  - vm_compute. reflexivity.
Defined.

(** A transfer from a cluster to itself changes nothing: the two
    assignments cancel on the one entry they touch. *)
Theorem self_transfer_is_noop (self self' : Agg.t) (i j : nat) :
  (j < length (row (Agg.membership self) i))%nat ->
  Agg._transfer self i j j = Some self' ->
  forall i' c, entry (Agg.membership self') i' c == entry (Agg.membership self) i' c.
Proof.
  intros Hj H. apply transfer_inv in H. destruct H as (amount & _ & ->). simpl.
  intros i' c. destruct (Nat.eq_dec i' i) as [->|Hi'].
  - destruct (Nat.eq_dec c j) as [->|Hc].
    + apply (move_mass_self _ _ _ _ _ Hj Hj eq_refl).
    + rewrite move_mass_other by (intro E; inversion E; congruence). reflexivity.
  - rewrite move_mass_other by (intro E; inversion E; congruence). reflexivity.
Qed.

Lemma self_transfer_is_noop_witness :
  exists self',
    Agg._transfer scenario 1 0 0 = Some self'
    /\ entry (Agg.membership self') 1 0 == entry (Agg.membership scenario) 1 0.
Proof.
  destruct (Agg._transfer scenario 1 0 0) as [s'|] eqn:E; [|discriminate E].
  exists s'. split; [reflexivity|].
  apply (self_transfer_is_noop scenario s' 1 0); [simpl; lia|exact E].
Defined.

(** [_is_transfer_possible] does not depend on the order of the two
    clusters and is never true of a cluster and itself, so [fit] executes no
    transfer from a cluster to itself. *)
Theorem is_transfer_possible_symmetric (self : Agg.t) (a b : nat) :
  Agg._is_transfer_possible self a b = Agg._is_transfer_possible self b a
  /\ Agg._is_transfer_possible self a a = false.
Proof.
  unfold Agg._is_transfer_possible, Qgtb. split.
  - assert (E : Qabs (nth a (Agg.Ti self) 0 - nth b (Agg.Ti self) 0)
                == Qabs (nth b (Agg.Ti self) 0 - nth a (Agg.Ti self) 0)).
    { rewrite <- Qabs_opp. apply Qabs_wd. ring. }
    destruct (Qltb (Agg.tol self) (Qabs (nth b (Agg.Ti self) 0 - nth a (Agg.Ti self) 0)))
      eqn:E1.
    + apply Qltb_lt. apply Qltb_lt in E1. rewrite E. exact E1.
    + apply Qltb_ge. apply Qltb_ge in E1. rewrite E. exact E1.
  - apply Qltb_ge. pose proof (tol_pos self) as Ht.
    assert (E : Qabs (nth a (Agg.Ti self) 0 - nth a (Agg.Ti self) 0) == 0).
    { rewrite Qabs_pos; [ring|]. apply Qle_minus_iff. ring_simplify. apply Qle_refl. }
    rewrite E. apply Qlt_le_weak. exact Ht.
Qed.

(** ** The records of the scoring step *)

Lemma length_insert_record (r : Agg.cost_record) (l : list Agg.cost_record) :
  length (Agg.insert_record r l) = S (length l).
Proof.
  induction l as [|x l IH]; simpl; [reflexivity|].
  destruct (Agg.sorts_before (Agg.cost_of x) (Agg.cost_of r)); simpl; [rewrite IH|];
    reflexivity.
Qed.

Lemma length_sort_by_cost (l : list Agg.cost_record) :
  length (Agg.sort_by_cost l) = length l.
Proof.
  induction l as [|x l IH]; simpl; [reflexivity|].
  rewrite length_insert_record, IH. reflexivity.
Qed.

Lemma In_firstn {A : Type} (n : nat) (l : list A) (x : A) :
  In x (firstn n l) -> In x l.
Proof.
  revert l; induction n as [|n IH]; intros [|y l]; simpl; try tauto.
  intros [->|H]; [left; reflexivity|right; apply IH; exact H].
Qed.

(** When [_get_transfer_records] returns, it returns [top_m] records (all
    of them if there are fewer candidates), and each names a unit of
    [range(N)], a cluster in which that unit has nonzero mass and a target
    cluster of [range(k)]. *)
Theorem transfer_records_in_range (self : Agg.t) (top_m : nat)
    (transfer_records : list Agg.transfer_record) :
  Agg._get_transfer_records self top_m = Some transfer_records ->
  length transfer_records = Nat.min top_m (length (Agg.transfer_costs self))
  /\ forall i j_old j_new,
       In (i, j_old, j_new) transfer_records ->
       (i < Agg.N self)%nat
       /\ (j_old < length (row (Agg.membership self) i))%nat
       /\ ~ entry (Agg.membership self) i j_old == 0
       /\ (j_new < Z.to_nat (Agg.k self))%nat.
Proof.
  unfold Agg._get_transfer_records. intro H.
  destruct (Agg.clusters self) as [|c0 cl] eqn:Ecl; [discriminate|].
  destruct (Agg.transfer_costs self) as [|r0 costs] eqn:Ec; [discriminate|].
  remember (Agg.sort_by_cost (r0 :: costs)) as sorted eqn:Es.
  injection H as <-. split.
  - rewrite length_map, length_firstn, Es, length_sort_by_cost. reflexivity.
  - intros i f t Hin. apply in_map_iff in Hin.
    destruct Hin as ([[[c a] b] d] & E & Hin). inversion E; subst a b d; clear E.
    apply In_firstn in Hin. rewrite Es in Hin. apply sort_by_cost_In in Hin.
    rewrite <- Ec in Hin.
    apply transfer_costs_In in Hin; [|rewrite Ecl; discriminate]. tauto.
Qed.

Lemma transfer_records_in_range_witness :
  length [(1, 0, 1)%nat] = Nat.min 1 (length (Agg.transfer_costs scenario))
  /\ forall i j_old j_new,
       In (i, j_old, j_new) [(1, 0, 1)%nat] ->
       (i < Agg.N scenario)%nat
       /\ (j_old < length (row (Agg.membership scenario) i))%nat
       /\ ~ entry (Agg.membership scenario) i j_old == 0
       /\ (j_new < Z.to_nat (Agg.k scenario))%nat.
Proof.
  apply (transfer_records_in_range scenario 1). vm_compute. reflexivity.
Defined.

(** ** The denominator of the score, again *)

Lemma weighted_squares_nonneg (w v : vec) :
  Forall (fun x => 0 <= x) w -> 0 <= Qsum (vmul w (vsq v)).
Proof.
  intro H. revert v. unfold vmul, vsq.
  induction H as [|w0 w Hw0 _ IH]; intros [|x v]; simpl; try lra.
  specialize (IH v). assert (0 <= x * x) by nra.
  assert (0 <= w0 * (x * x)) by (apply Qmult_le_0_compat; assumption).
  lra.
Qed.

Lemma weighted_squares_pos (w v : vec) (j : nat) :
  Forall (fun x => 0 <= x) w ->
  (j < length w)%nat -> (j < length v)%nat ->
  0 < nth j w 0 -> ~ nth j v 0 == 0 ->
  0 < Qsum (vmul w (vsq v)).
Proof.
  intro H. revert v j.
  induction H as [|w0 w Hw0 Hw IH]; intros [|x v] [|j] Hjw Hjv Hp Hnz; simpl in *;
    try lia.
  - pose proof (weighted_squares_nonneg w v Hw) as Hr. unfold vmul, vsq in *.
    assert (0 < x * x) by (destruct (Qlt_le_dec x 0); [nra|];
                           destruct (Qlt_le_dec 0 x); [nra|]; exfalso; apply Hnz; lra).
    assert (0 < w0 * (x * x)) by (apply Qmult_lt_0_compat; assumption).
    lra.
  - assert (Hr : 0 < Qsum (vmul w (vsq v))) by (apply (IH v j); try lia; assumption).
    unfold vmul, vsq in *. assert (0 <= x * x) by nra.
    assert (0 <= w0 * (x * x)) by (apply Qmult_le_0_compat; assumption).
    lra.
Qed.

(** With nonnegative weights the denominator of the score is never
    negative, and it is positive as soon as one auxiliary variable has a
    positive weight and a difference of totals other than [-1e-9]: the
    stabilizer protects every other case. *)
Theorem score_denominator_positive (self : Agg.t) (j_old j_new j : nat) :
  Forall (fun x => 0 <= x) (Agg.weights self) ->
  (j < length (Agg.weights self))%nat ->
  (j < length (row (Agg.Tij self) j_old))%nat ->
  (j < length (row (Agg.Tij self) j_new))%nat ->
  0 < nth j (Agg.weights self) 0 ->
  ~ entry (Agg.Tij self) j_old j - entry (Agg.Tij self) j_new j == - Agg.stabilizer ->
  0 < Agg.score_denominator self j_old j_new.
Proof.
  intros Hw Hjw Hjo Hjn Hp Hne. unfold Agg.score_denominator, Agg._weighet_norm.
  apply (weighted_squares_pos _ _ j Hw Hjw).
  - unfold vadds, vsub. rewrite length_map, length_map2. lia.
  - exact Hp.
  - unfold vadds, vsub.
    rewrite (nth_indep _ 0 (0 + Agg.stabilizer))
      by (rewrite length_map, length_map2; lia).
    rewrite (map_nth (fun x => x + Agg.stabilizer)).
    rewrite (nth_map2 _ _ _ j 0 0 0) by assumption.
    intro E. apply Hne. unfold entry. lra.
Qed.

Lemma score_denominator_positive_witness : 0 < Agg.score_denominator scenario 0 1.
Proof.
  apply (score_denominator_positive scenario 0 1 0).
  - repeat constructor. discriminate.
  - simpl. lia.
  - simpl. lia.
  - simpl. lia.
  - reflexivity.
  - vm_compute. discriminate.
Defined.

(** ** The seeded membership *)

Lemma filter_eqb_seq (l a n : nat) :
  filter (fun c => Nat.eqb c l) (seq a n)
  = if (Nat.leb a l && Nat.ltb l (a + n))%bool then [l] else [].
Proof.
  revert a; induction n as [|n IH]; intro a; simpl.
  - destruct (Nat.leb_spec a l), (Nat.ltb_spec l (a + 0)); simpl; try reflexivity; lia.
  - rewrite IH.
    destruct (Nat.eqb_spec a l), (Nat.leb_spec (S a) l), (Nat.ltb_spec l (S a + n)),
      (Nat.leb_spec a l), (Nat.ltb_spec l (a + S n)); simpl; subst; try lia; reflexivity.
Qed.

(** The membership generated from the labels gives them back: in the row
    of unit [i] the only nonzero entry is at the label of [i], so the scoring
    step starts with exactly one candidate source cluster per unit. *)
Theorem seed_labels_round_trip (self : Agg.t) (cluster_centers : matrix)
    (kmeans_labels : list nat) (i : nat) :
  (i < Agg.N self)%nat ->
  (nth i kmeans_labels O < Z.to_nat (Agg.k self))%nat ->
  Agg.np_nonzero (row (Agg.membership (Agg.seed self cluster_centers kmeans_labels)) i)
  = [nth i kmeans_labels O].
Proof.
  intros Hi Hl. unfold Agg.np_nonzero.
  assert (Hrow : row (Agg.membership (Agg.seed self cluster_centers kmeans_labels)) i
                 = map (fun c => if Nat.eqb c (nth i kmeans_labels O) then 1 else 0)
                       (seq 0 (Z.to_nat (Agg.k self)))).
  { unfold Agg.seed, row. simpl. unfold Agg._generate_membership, Agg.clusters. simpl.
    exact (nth_map_seq _ _ _ _ Hi). }
  rewrite Hrow, length_map, length_seq.
  rewrite (filter_ext_in _ (fun c => Nat.eqb c (nth i kmeans_labels O))).
  - rewrite filter_eqb_seq.
    destruct (Nat.leb_spec 0 (nth i kmeans_labels O)),
      (Nat.ltb_spec (nth i kmeans_labels O) (0 + Z.to_nat (Agg.k self)));
      simpl; try lia; reflexivity.
  - intros c Hc. apply in_seq in Hc.
    rewrite (nth_map_seq _ _ _ _ (proj2 Hc)).
    destruct (Nat.eqb c (nth i kmeans_labels O)); reflexivity.
Qed.

Lemma seed_labels_round_trip_witness :
  Agg.np_nonzero (row (Agg.membership scenario) 2) = [1%nat].
Proof.
  apply (seed_labels_round_trip
           (Agg.mk 2 9 [[0]; [1]; [10]; [11]] [[1]; [1]; [-1]; [-1]] [1]
                   1 4 [] [] [] [] [])
           [[1 # 2]; [21 # 2]] [0; 0; 1; 1]%nat 2); simpl; lia.
Defined.

(** ** The centroids that the code stores *)

(** [_update_centroids] stores the membership-weighted mean of a cluster
    multiplied by the share [sum_i M[i, c] / N] of the cluster in the total
    mass: the two agree only for a cluster that holds all the mass. *)
Theorem update_centroids_scaled_mean (self : Agg.t) (c d : nat) :
  (c < Z.to_nat (Agg.k self))%nat ->
  (d < length (row (Agg.Y_features self) 0))%nat ->
  ~ Qsum (column (Agg.membership self) c) == 0 ->
  entry (Agg.centroids (Agg._update_centroids self)) c d
  == weighted_mean self c d
     * (Qsum (column (Agg.membership self) c)
        / inject_Z (Z.of_nat (length (Agg.Y_features self)))).
Proof.
  intros Hc Hd Hmass. unfold Agg._update_centroids, entry, row. simpl.
  unfold Agg.clusters.
  rewrite (nth_map_seq _ _ _ _ Hc), (nth_map_seq _ _ _ _ Hd).
  unfold weighted_mean.
  assert (HN : ~ inject_Z (Z.of_nat (length (Agg.Y_features self))) == 0).
  { assert (Hlen : (0 < length (Agg.Y_features self))%nat).
    { destruct (Agg.Y_features self) as [|y Y]; simpl in *; lia. }
    intro E. unfold Qeq, inject_Z in E. simpl in E. lia. }
  field. split; assumption.
Qed.

Lemma update_centroids_scaled_mean_witness :
  entry (Agg.centroids (Agg._update_centroids scenario)) 0 0
  == weighted_mean scenario 0 0
     * (Qsum (column (Agg.membership scenario) 0)
        / inject_Z (Z.of_nat (length (Agg.Y_features scenario)))).
Proof.
  apply (update_centroids_scaled_mean scenario 0 0).
  - simpl. lia.
  - simpl. lia.
  - vm_compute. discriminate.
Defined.

(** ** The grand total of the imbalances *)

Lemma Qsum_map_ext {A : Type} (f g : A -> Q) (l : list A) :
  (forall a, In a l -> f a == g a) -> Qsum (map f l) == Qsum (map g l).
Proof.
  induction l as [|a l IH]; intro H; simpl; [reflexivity|].
  rewrite (H a (or_introl eq_refl)), IH; [reflexivity|].
  intros b Hb. apply H. right. exact Hb.
Qed.

Lemma Qsum_map_zero {A : Type} (f : A -> Q) (l : list A) :
  (forall a, f a == 0) -> Qsum (map f l) == 0.
Proof.
  intro H. induction l as [|a l IH]; simpl; [reflexivity|]. rewrite H, IH. ring.
Qed.

Lemma Qsum_vmul_zeros (w : vec) {A : Type} (l : list A) :
  Qsum (vmul w (map (fun _ => 0) l)) == 0.
Proof.
  unfold vmul. revert l; induction w as [|w0 w IH]; intros [|a l]; simpl;
    try reflexivity.
  rewrite IH. ring.
Qed.

Lemma Qsum_vmul_add_row (w x : vec) (q : Q) (f : nat -> Q) (m : nat) :
  length x = m ->
  Qsum (vmul w (map (fun j => nth j x 0 * q + f j) (seq 0 m)))
  == q * Qsum (vmul w x) + Qsum (vmul w (map f (seq 0 m))).
Proof.
  intro Hx.
  assert (F : Forall2 Qeq (map (fun j => nth j x 0 * q + f j) (seq 0 m))
                (map2 (fun t y => t + q * y) (map f (seq 0 m)) x)).
  { apply Forall2_Qeq_nth.
    - rewrite length_map2, !length_map, length_seq. lia.
    - rewrite length_map, length_seq. intros j Hj.
      rewrite (nth_map_seq _ _ _ _ Hj).
      rewrite (nth_map2 _ _ _ j 0 0 0)
        by (rewrite ?length_map, ?length_seq; lia).
      rewrite (nth_map_seq _ _ _ _ Hj). ring. }
  rewrite (Qsum_ext _ _ (vmul_ext w _ _ F)).
  rewrite Qsum_vmul_axpy by (rewrite length_map, length_seq; lia).
  ring.
Qed.

Lemma Qsum_map_add_entries (r : vec) (s : Q) :
  forall (g : nat -> Q) (n : nat),
    length r = n ->
    Qsum (map (fun c => nth c r 0 * s + g c) (seq 0 n))
    == Qsum r * s + Qsum (map g (seq 0 n)).
Proof.
  induction r as [|r0 r IH]; intros g [|n] H; simpl in *; try discriminate.
  - ring.
  - rewrite <- !seq_shift, !map_map.
    rewrite (IH (fun c => g (S c)) n) by lia. ring.
Qed.

Lemma Ti_of_total (w : vec) (m ncl : nat) :
  forall X M : matrix,
    length X = length M ->
    Forall (fun x => length x = m) X ->
    Forall (fun r => length r = ncl) M ->
    Qsum (Ti_of X M w m ncl)
    == Qsum (map2 (fun x r => Qsum r * Qsum (vmul w x)) X M).
Proof.
  induction X as [|x X IH]; intros [|r M] Hlen HX HM; simpl in Hlen; try discriminate.
  - unfold Ti_of. simpl. apply Qsum_map_zero. intro c. apply Qsum_vmul_zeros.
  - inversion HX as [|? ? Hx HX']; subst. inversion HM as [|? ? Hr HM']; subst.
    cbn [map2 Qsum fold_right]. rewrite <- (IH M) by (try assumption; lia).
    unfold Ti_of.
    rewrite (Qsum_map_ext _
               (fun c => nth c r 0 * Qsum (vmul w x)
                         + Qsum (vmul w (map (fun j => Qsum (vmul (column X j) (column M c)))
                                             (seq 0 (length x)))))).
    + apply Qsum_map_add_entries. reflexivity.
    + intros c _.
      exact (Qsum_vmul_add_row w x (nth c r 0)
               (fun j => Qsum (vmul (column X j) (column M c))) (length x) eq_refl).
Qed.

Lemma Forall_rows (A : matrix) (n len : nat) :
  length A = n ->
  (forall i, (i < n)%nat -> length (row A i) = len) ->
  Forall (fun r => length r = len) A.
Proof.
  revert n; induction A as [|a A IH]; intros n Hn H; constructor.
  - apply (H O). simpl in Hn. lia.
  - apply (IH (length A) eq_refl). intros i Hi. apply (H (S i)). simpl in Hn. lia.
Qed.

Lemma Qsum_unit_rows (w : vec) :
  forall X M : matrix,
    length X = length M ->
    (forall i, (i < length M)%nat -> Qsum (row M i) == 1) ->
    Qsum (map2 (fun x r => Qsum r * Qsum (vmul w x)) X M) == Qsum (unit_totals X w).
Proof.
  induction X as [|x X IH]; intros [|r M] Hlen H; simpl in *; try discriminate;
    try reflexivity.
  rewrite IH; [|lia|intros i Hi; apply (H (S i)); lia].
  rewrite (H O) by lia. ring.
Qed.

Lemma Ti_total_is_constant_aux (self : Agg.t) :
  well_shaped self ->
  rows_sum_to_one self ->
  Qsum (Agg._generate_Ti self)
  == Qsum (unit_totals (Agg.X_features self) (Agg.weights self)).
Proof.
  intros (HX & HXr & Hw & HM & HMr) Hrows.
  assert (E : Agg._generate_Ti self
              = Ti_of (Agg.X_features self) (Agg.membership self) (Agg.weights self)
                      (Agg.m self) (Z.to_nat (Agg.k self))).
  { unfold Agg._generate_Ti, Agg._generate_Tij, Ti_of, Agg.clusters.
    rewrite map_map. reflexivity. }
  rewrite E, Ti_of_total.
  - apply Qsum_unit_rows; [congruence|]. intros i Hi. apply (Hrows i Hi).
  - congruence.
  - eapply Forall_rows; eassumption.
  - eapply Forall_rows; eassumption.
Qed.

(** Whatever the membership, as long as every row sums to 1, the
    imbalances [Ti[c]] add up to the weighted auxiliary total of all units:
    transfers only redistribute this constant among the clusters. *)
Theorem Ti_total_is_constant (self : Agg.t) :
  well_shaped self ->
  rows_sum_to_one self ->
  Qsum (Agg._generate_Ti self)
  == Qsum (unit_totals (Agg.X_features self) (Agg.weights self)).
Proof. exact (Ti_total_is_constant_aux self). Qed.

Lemma scenario_rows_sum_to_one : rows_sum_to_one scenario.
Proof.
  apply seed_rows_sum_to_one. simpl. intros j Hj. first_rows; simpl; lia.
Qed.

Lemma Ti_total_is_constant_witness :
  Qsum (Agg._generate_Ti scenario)
  == Qsum (unit_totals (Agg.X_features scenario) (Agg.weights scenario)).
Proof.
  apply (Ti_total_is_constant scenario).
  - exact scenario_well_shaped.
  - exact scenario_rows_sum_to_one.
Defined.

Lemma inject_Z_succ (n : nat) :
  inject_Z (Z.of_nat (S n)) == inject_Z (Z.of_nat n) + 1.
Proof. rewrite Nat2Z.inj_succ. unfold Z.succ. rewrite inject_Z_plus. reflexivity. Qed.

Lemma Qabs_Qsum_le (l : vec) (b : Q) :
  Forall (fun x => Qabs x < b) l ->
  Qabs (Qsum l) <= inject_Z (Z.of_nat (length l)) * b.
Proof.
  induction 1 as [|x l Hx _ IH].
  - simpl. rewrite Qmult_0_l. apply Qle_refl.
  - change (Qsum (x :: l)) with (x + Qsum l). cbn [length]. rewrite inject_Z_succ.
    pose proof (Qabs_triangle x (Qsum l)) as Ht. lra.
Qed.

Lemma Qabs_Qsum_bound (l : vec) (b : Q) :
  Forall (fun x => Qabs x < b) l -> l <> [] ->
  Qabs (Qsum l) < inject_Z (Z.of_nat (length l)) * b.
Proof.
  intros H Hne. destruct H as [|x l Hx Hl]; [congruence|].
  change (Qsum (x :: l)) with (x + Qsum l). cbn [length]. rewrite inject_Z_succ.
  pose proof (Qabs_triangle x (Qsum l)) as Ht.
  pose proof (Qabs_Qsum_le l b Hl) as Hb. lra.
Qed.

(** A run whose units have a weighted auxiliary total of absolute value at
    least [k * 10^-tau] can never meet the stop condition: while the rows of
    the membership sum to 1, some [|Ti[c]|] stays at or above the tolerance. *)
Theorem unbalanced_total_blocks_stop (self : Agg.t) :
  well_shaped self ->
  in_sync self ->
  rows_sum_to_one self ->
  (0 < Z.to_nat (Agg.k self))%nat ->
  inject_Z (Z.of_nat (Z.to_nat (Agg.k self))) * Agg.tol self
  <= Qabs (Qsum (unit_totals (Agg.X_features self) (Agg.weights self))) ->
  Agg._stop_codition self (Agg.tolerance self) = false.
Proof.
  intros Hws [_ HTi] Hrows Hk Hbig.
  destruct (Agg._stop_codition self (Agg.tolerance self)) eqn:Es; [exfalso|reflexivity].
  unfold Agg._stop_codition in Es. rewrite forallb_forall in Es.
  assert (HF : Forall (fun x => Qabs x < Agg.tol self) (Agg._generate_Ti self)).
  { rewrite <- HTi. apply Forall_forall. intros x Hx. apply Qltb_lt. apply (Es x Hx). }
  assert (Hlen : length (Agg._generate_Ti self) = Z.to_nat (Agg.k self)).
  { unfold Agg._generate_Ti, Agg._generate_Tij, Agg.clusters.
    rewrite !length_map, length_seq. reflexivity. }
  assert (Hne : Agg._generate_Ti self <> []).
  { intro E. rewrite E in Hlen. simpl in Hlen. lia. }
  pose proof (Qabs_Qsum_bound _ _ HF Hne) as Hb. rewrite Hlen in Hb.
  rewrite (Ti_total_is_constant_aux self Hws Hrows) in Hb. lra.
Qed.

(** ** What the loop leaves alone *)

Lemma loop_body_inputs (s s' : Agg.t) :
  Agg.loop_body s = Agg.Continue s' ->
  Agg.k s' = Agg.k s /\ Agg.tolerance s' = Agg.tolerance s
  /\ Agg.Y_features s' = Agg.Y_features s /\ Agg.X_features s' = Agg.X_features s
  /\ Agg.weights s' = Agg.weights s /\ Agg.m s' = Agg.m s /\ Agg.N s' = Agg.N s
  /\ Agg.labels s' = Agg.labels s.
Proof.
  intro H. apply loop_body_Continue_state in H.
  destruct H as [->|(i & f & t & amount & _ & _ & _ & _ & _ & ->)];
    repeat split; reflexivity.
Qed.

Lemma reachable_inputs (s0 s : Agg.t) :
  reachable s0 s ->
  Agg.k s = Agg.k s0 /\ Agg.tolerance s = Agg.tolerance s0
  /\ Agg.Y_features s = Agg.Y_features s0 /\ Agg.X_features s = Agg.X_features s0
  /\ Agg.weights s = Agg.weights s0 /\ Agg.m s = Agg.m s0 /\ Agg.N s = Agg.N s0
  /\ Agg.labels s = Agg.labels s0.
Proof.
  induction 1 as [|s s' _ IH Hb]; [repeat split; reflexivity|].
  apply loop_body_inputs in Hb.
  destruct IH as (H1 & H2 & H3 & H4 & H5 & H6 & H7 & H8).
  destruct Hb as (G1 & G2 & G3 & G4 & G5 & G6 & G7 & G8).
  repeat split; congruence.
Qed.

(** The loop of [fit] writes only [membership], [Tij], [Ti] and
    [centroids]: when it ends, the cluster count, the tolerance, [Y], [X],
    the weights, [m], [N] and the labels of the hard clustering are those it
    started with, so the labels are not kept in line with the membership. *)
Theorem loop_leaves_inputs (fuel : nat) (self self' : Agg.t) (iter_ n : nat) :
  Agg.while_loop fuel self iter_ = Some (Agg.Finished self' n) ->
  Agg.k self' = Agg.k self /\ Agg.tolerance self' = Agg.tolerance self
  /\ Agg.Y_features self' = Agg.Y_features self
  /\ Agg.X_features self' = Agg.X_features self
  /\ Agg.weights self' = Agg.weights self /\ Agg.m self' = Agg.m self
  /\ Agg.N self' = Agg.N self /\ Agg.labels self' = Agg.labels self.
Proof.
  intro H. apply while_loop_exit in H. destruct H as (Hr & _).
  apply reachable_inputs. exact Hr.
Qed.

(** One pass on [scenario], entered with [iter_ = 99]: unit 1 is moved to
    cluster 1, and the labels still say cluster 0. *)
Lemma loop_leaves_inputs_witness :
  exists self',
    Agg.while_loop 2 scenario 99 = Some (Agg.Finished self' 100)
    /\ entry (Agg.membership scenario) 1 1 == 0
    /\ entry (Agg.membership self') 1 1 == 1
    /\ ~ nth 1 (Agg.Ti self') 0 == nth 1 (Agg.Ti scenario) 0
    /\ Agg.centroids self' <> Agg.centroids scenario
    /\ Agg.k self' = 2%Z /\ Agg.tolerance self' = 9%Z
    /\ Agg.Y_features self' = [[0]; [1]; [10]; [11]]
    /\ Agg.X_features self' = [[1]; [1]; [-1]; [-1]]
    /\ Agg.weights self' = [1] /\ Agg.m self' = 1%nat /\ Agg.N self' = 4%nat
    /\ Agg.labels self' = [0; 0; 1; 1]%nat.
Proof.
  destruct (Agg.while_loop 2 scenario 99) as [[s' n| |]|] eqn:E;
    try (vm_compute in E; discriminate E).
  pose proof (loop_leaves_inputs 2 scenario s' 99 n E)
    as (H1 & H2 & H3 & H4 & H5 & H6 & H7 & H8).
  exists s'.
  vm_compute in E. injection E as Es <-.
  split; [reflexivity|].
  split; [reflexivity|].
  split; [rewrite <- Es; vm_compute; reflexivity|].
  split; [rewrite <- Es; vm_compute; discriminate|].
  split; [rewrite <- Es; vm_compute; discriminate|].
  repeat split; assumption.
Defined.

Lemma unbalanced_run_aux (self s : Agg.t) (cluster_centers : matrix)
    (kmeans_labels : list nat) :
  length (Agg.X_features self) = Agg.N self ->
  (forall i, (i < Agg.N self)%nat -> length (row (Agg.X_features self) i) = Agg.m self) ->
  length (Agg.weights self) = Agg.m self ->
  (forall j, (j < Agg.N self)%nat -> (nth j kmeans_labels O < Z.to_nat (Agg.k self))%nat) ->
  (0 < Z.to_nat (Agg.k self))%nat ->
  inject_Z (Z.of_nat (Z.to_nat (Agg.k self))) * Agg.tol self
  <= Qabs (Qsum (unit_totals (Agg.X_features self) (Agg.weights self))) ->
  reachable (Agg.seed self cluster_centers kmeans_labels) s ->
  Agg._stop_codition s (Agg.tolerance s) = false.
Proof.
  intros HX HXr Hw Hl Hk Hbig Hr.
  destruct (reachable_shape_sync self s cluster_centers kmeans_labels HX HXr Hw Hr)
    as [Hws Hsync].
  assert (Hrows : rows_sum_to_one s).
  { eapply reachable_rows_sum_to_one; [|exact Hr]. apply seed_rows_sum_to_one. exact Hl. }
  destruct (reachable_inputs _ _ Hr) as (E1 & E2 & _ & E4 & E5 & _).
  simpl in E1, E2, E4, E5.
  destruct (Agg._stop_codition s (Agg.tolerance s)) eqn:Es; [exfalso|reflexivity].
  unfold Agg._stop_codition in Es. rewrite forallb_forall in Es.
  destruct Hsync as [_ HTi].
  assert (HF : Forall (fun x => Qabs x < Agg.tol s) (Agg._generate_Ti s)).
  { rewrite <- HTi. apply Forall_forall. intros x Hx. apply Qltb_lt. apply (Es x Hx). }
  assert (Hlen : length (Agg._generate_Ti s) = Z.to_nat (Agg.k s)).
  { unfold Agg._generate_Ti, Agg._generate_Tij, Agg.clusters.
    rewrite !length_map, length_seq. reflexivity. }
  assert (Hne : Agg._generate_Ti s <> []).
  { intro E. rewrite E in Hlen. simpl in Hlen. lia. }
  pose proof (Qabs_Qsum_bound _ _ HF Hne) as Hb. rewrite Hlen in Hb.
  rewrite (Ti_total_is_constant_aux s Hws Hrows) in Hb.
  unfold Agg.tol in *. rewrite E1, E2, E4, E5 in Hb. lra.
Qed.

(** A run whose units have a weighted auxiliary total of absolute value at
    least [k * 10^-tau] never meets the stop condition, and as the [break]
    is never taken it ends, if no exception is raised, only when [iter_]
    reaches 100. *)
Theorem unbalanced_run_reaches_cap (fuel : nat) (self self' : Agg.t)
    (cluster_centers : matrix) (kmeans_labels : list nat) (n : nat) :
  length (Agg.X_features self) = Agg.N self ->
  (forall i, (i < Agg.N self)%nat -> length (row (Agg.X_features self) i) = Agg.m self) ->
  length (Agg.weights self) = Agg.m self ->
  (forall j, (j < Agg.N self)%nat -> (nth j kmeans_labels O < Z.to_nat (Agg.k self))%nat) ->
  (0 < Z.to_nat (Agg.k self))%nat ->
  inject_Z (Z.of_nat (Z.to_nat (Agg.k self))) * Agg.tol self
  <= Qabs (Qsum (unit_totals (Agg.X_features self) (Agg.weights self))) ->
  Agg.while_loop fuel (Agg.seed self cluster_centers kmeans_labels) 0
  = Some (Agg.Finished self' n) ->
  n = 100%nat /\ Agg._stop_codition self' (Agg.tolerance self') = false.
Proof.
  intros HX HXr Hw Hl Hk Hbig H.
  apply while_loop_exit in H. destruct H as (Hr & _ & Hub & Hex).
  pose proof (unbalanced_run_aux self self' cluster_centers kmeans_labels
                HX HXr Hw Hl Hk Hbig Hr) as Hs.
  split; [|exact Hs]. destruct Hex as [Hex|Hex]; [congruence|]. simpl in Hub. lia.
Qed.

Lemma stalled_well_shaped : well_shaped stalled.
Proof.
  repeat split; try reflexivity; simpl; intros i Hi; first_rows; reflexivity.
Qed.

Lemma unbalanced_total_blocks_stop_witness :
  Agg._stop_codition stalled (Agg.tolerance stalled) = false.
Proof.
  apply (unbalanced_total_blocks_stop stalled).
  - exact stalled_well_shaped.
  - split; reflexivity.
  - apply seed_rows_sum_to_one. simpl. intros j Hj. first_rows; simpl; lia.
  - simpl. lia.
  - vm_compute. discriminate.
Defined.

Lemma unbalanced_run_reaches_cap_witness :
  exists self',
    Agg.while_loop 101 stalled 0 = Some (Agg.Finished self' 100)
    /\ Agg._stop_codition self' (Agg.tolerance self') = false.
Proof.
  destruct (Agg.while_loop 101 stalled 0) as [[s' n| |]|] eqn:E;
    try (vm_compute in E; discriminate E).
  destruct (unbalanced_run_reaches_cap 101
              (Agg.mk 2 9 [[0]; [10]] [[1]; [1]] [1] 1 2 [] [] [] [] [])
              s' [[0]; [10]] [0; 1]%nat n) as [Hn Hs].
  - reflexivity.
  - simpl. intros i Hi. first_rows; reflexivity.
  - reflexivity.
  - simpl. intros j Hj. first_rows; simpl; lia.
  - simpl. lia.
  - vm_compute. discriminate.
  - exact E.
  - exists s'. subst n. split; [reflexivity|exact Hs].
Defined.

(** ** The selected record is the cheapest *)

Ltac np_cases :=
  repeat match goal with
         | H : Qltb _ _ = true |- _ => apply Qltb_lt in H
         | H : Qltb _ _ = false |- _ => apply Qltb_ge in H
         | |- Qltb _ _ = false => apply Qltb_ge
         | |- Qltb _ _ = true => apply Qltb_lt
         end.

Lemma argmin_better_irrefl (x : npfloat) : Agg.argmin_better x x = false.
Proof.
  destruct x as [q| | |]; simpl; try reflexivity. apply Qltb_ge. apply Qle_refl.
Qed.

Lemma argmin_better_chain (x b e : npfloat) :
  Agg.argmin_better x b = true -> Agg.argmin_better e b = false ->
  Agg.argmin_better e x = false.
Proof.
  destruct x as [x| | |], b as [b| | |], e as [e| | |]; simpl;
    try discriminate; try reflexivity; intros H1 H2; np_cases; lra.
Qed.

Lemma argmin_better_ltb (x b : npfloat) :
  Agg.argmin_better x b = false -> np_ltb x b = false.
Proof.
  destruct x as [x| | |], b as [b| | |]; simpl; try discriminate; try reflexivity;
    intro H; exact H.
Qed.

Lemma argmin_from_least (l : list npfloat) :
  forall (pre : list npfloat) (best_idx : nat) (best : npfloat),
    nth best_idx pre NaN = best ->
    (best_idx < length pre)%nat ->
    (forall e, In e pre -> Agg.argmin_better e best = false) ->
    forall e, In e (pre ++ l) ->
      Agg.argmin_better
        e (nth (Agg.argmin_from l (length pre) best_idx best) (pre ++ l) NaN) = false.
Proof.
  induction l as [|x l IH]; intros pre bi best Hb Hlt Hpre e He; simpl.
  - rewrite app_nil_r in *. rewrite Hb. apply Hpre. exact He.
  - assert (Eapp : pre ++ x :: l = (pre ++ [x]) ++ l)
      by (rewrite <- app_assoc; reflexivity).
    assert (Elen : S (length pre) = length (pre ++ [x]))
      by (rewrite length_app; simpl; lia).
    rewrite Eapp in *. rewrite Elen.
    destruct (Agg.argmin_better x best) eqn:Ex.
    + apply IH; try assumption.
      * rewrite app_nth2 by lia. rewrite Nat.sub_diag. reflexivity.
      * rewrite length_app. simpl. lia.
      * intros e' He'. apply in_app_or in He'. destruct He' as [He'|[<-|[]]].
        -- eapply argmin_better_chain; [exact Ex|apply Hpre; exact He'].
        -- apply argmin_better_irrefl.
    + apply IH; try assumption.
      * rewrite app_nth1 by lia. exact Hb.
      * rewrite length_app. simpl. lia.
      * intros e' He'. apply in_app_or in He'. destruct He' as [He'|[<-|[]]].
        -- apply Hpre. exact He'.
        -- exact Ex.
Qed.

Lemma np_argmin_least (l : list npfloat) (e : npfloat) :
  In e l -> np_ltb e (nth (Agg.np_argmin l) l NaN) = false.
Proof.
  destruct l as [|x l]; [intros []|]. intro He. apply argmin_better_ltb.
  unfold Agg.np_argmin.
  apply (argmin_from_least l [x] 0 x eq_refl); simpl; try lia; try assumption.
  intros e' [<-|[]]. apply argmin_better_irrefl.
Qed.

Lemma sorts_before_irrefl (x : npfloat) : Agg.sorts_before x x = false.
Proof.
  destruct x as [q| | |]; simpl; try reflexivity. apply Qltb_ge. apply Qle_refl.
Qed.

Lemma sorts_before_asym (x y : npfloat) :
  Agg.sorts_before x y = true -> Agg.sorts_before y x = false.
Proof.
  destruct x as [x| | |], y as [y| | |]; simpl; try discriminate; try reflexivity;
    intro H; np_cases; lra.
Qed.

Lemma sorts_before_chain (y h a : npfloat) :
  Agg.sorts_before y h = false -> Agg.sorts_before h a = false ->
  Agg.sorts_before y a = false.
Proof.
  destruct y as [y| | |], h as [h| | |], a as [a| | |]; simpl;
    try discriminate; try reflexivity; intros H1 H2; np_cases; lra.
Qed.

Lemma sorts_before_ltb (x y : npfloat) :
  Agg.sorts_before x y = false -> np_ltb x y = false.
Proof.
  destruct x as [x| | |], y as [y| | |]; simpl; try discriminate; try reflexivity;
    intro H; exact H.
Qed.

Lemma sort_by_cost_head (l : list Agg.cost_record) (r : Agg.cost_record)
    (rest : list Agg.cost_record) :
  Agg.sort_by_cost l = r :: rest ->
  forall y, In y l -> Agg.sorts_before (Agg.cost_of y) (Agg.cost_of r) = false.
Proof.
  revert r rest. induction l as [|a l IH]; intros r rest Hs y Hy; [destruct Hy|].
  simpl in Hs. destruct (Agg.sort_by_cost l) as [|h t] eqn:El.
  - simpl in Hs. injection Hs as <- <-.
    destruct l as [|b l]; [|simpl in El; destruct (Agg.sort_by_cost l); simpl in El;
      [discriminate|destruct (Agg.sorts_before _ _); discriminate]].
    destruct Hy as [<-|[]]. apply sorts_before_irrefl.
  - simpl in Hs. destruct (Agg.sorts_before (Agg.cost_of h) (Agg.cost_of a)) eqn:Eh.
    + injection Hs as <- <-. destruct Hy as [<-|Hy].
      * apply sorts_before_asym. exact Eh.
      * apply (IH h t eq_refl). exact Hy.
    + injection Hs as <- <-. destruct Hy as [<-|Hy].
      * apply sorts_before_irrefl.
      * eapply sorts_before_chain; [apply (IH h t eq_refl); exact Hy|exact Eh].
Qed.

Lemma transfer_costs_In_argmin (self : Agg.t) (c : npfloat) (i j_old j_new : nat) :
  In (c, i, j_old, j_new) (Agg.transfer_costs self) ->
  j_new = Agg.np_argmin (map (fun j => Agg._transfer_score self i j_old j)
                             (Agg.clusters self))
  /\ c = Agg._transfer_score self i j_old j_new.
Proof.
  unfold Agg.transfer_costs. rewrite in_flat_map. intros [i' [_ H]].
  rewrite in_map_iff in H. destruct H as [j [E _]]. inversion E; subst; clear E.
  split; reflexivity.
Qed.

(** The record that [fit] executes is the cheapest: no record of [costs]
    has a strictly smaller cost, and for its unit and source cluster no
    target cluster of [range(k)] has a strictly smaller score than its
    target. *)
Theorem selected_record_is_cheapest (self : Agg.t) (i j_old j_new : nat) :
  Agg._get_transfer_records self 1 = Some [(i, j_old, j_new)] ->
  (forall c' i' j_old' j_new',
      In (c', i', j_old', j_new') (Agg.transfer_costs self) ->
      np_ltb c' (Agg._transfer_score self i j_old j_new) = false)
  /\ (forall j, (j < Z.to_nat (Agg.k self))%nat ->
        np_ltb (Agg._transfer_score self i j_old j)
               (Agg._transfer_score self i j_old j_new) = false).
Proof.
  unfold Agg._get_transfer_records. intro H.
  destruct (Agg.clusters self) as [|c0 cl] eqn:Ecl; [discriminate|].
  destruct (Agg.transfer_costs self) as [|r0 costs] eqn:Ec; [discriminate|].
  remember (Agg.sort_by_cost (r0 :: costs)) as sorted eqn:Es.
  destruct sorted as [|[[[c a] b] d] rest]; [discriminate|].
  simpl in H. injection H as -> -> ->. symmetry in Es.
  assert (Hin : In (c, i, j_old, j_new) (Agg.transfer_costs self)).
  { rewrite Ec. apply sort_by_cost_In. rewrite Es. left. reflexivity. }
  destruct (transfer_costs_In_argmin _ _ _ _ _ Hin) as [Harg Hc].
  assert (Hrange : (j_new < Z.to_nat (Agg.k self))%nat).
  { apply (transfer_costs_In self c i j_old j_new); [rewrite Ecl; discriminate|exact Hin]. }
  split.
  - intros c' i' f' t' Hin'. rewrite <- Hc.
    apply sorts_before_ltb.
    apply (sort_by_cost_head _ _ _ Es (c', i', f', t')). exact Hin'.
  - intros j Hj.
    set (L := map (fun j => Agg._transfer_score self i j_old j) (Agg.clusters self)) in *.
    assert (Hnth : nth j_new L NaN = Agg._transfer_score self i j_old j_new).
    { unfold L, Agg.clusters. apply nth_map_seq. exact Hrange. }
    rewrite <- Hnth.
    replace (nth j_new L NaN) with (nth (Agg.np_argmin L) L NaN)
      by (rewrite <- Harg; reflexivity).
    apply np_argmin_least.
    unfold L. apply in_map_iff. exists j. split; [reflexivity|].
    unfold Agg.clusters. apply in_seq. lia.
Qed.

Lemma selected_record_is_cheapest_witness :
  np_ltb (Agg._transfer_score crossing 0 0 0) (Agg._transfer_score crossing 0 0 1) = false.
Proof.
  apply (selected_record_is_cheapest crossing 0 0 1).
  - vm_compute. reflexivity.
  - simpl. lia.
Defined.

(** ** The expected number of transfers *)

Lemma Qsum_app (l l' : vec) : Qsum (l ++ l') == Qsum l + Qsum l'.
Proof.
  induction l as [|x l IH]; simpl; [ring|]. rewrite IH. ring.
Qed.

Lemma Qsum_filter_nonzero (l : vec) :
  Qsum (filter (fun x => negb (Qeq_bool x 0)) l) == Qsum l.
Proof.
  induction l as [|x l IH]; simpl; [reflexivity|].
  destruct (Qeq_bool x 0) eqn:E; simpl; rewrite IH.
  - apply Qeq_bool_iff in E. rewrite E. ring.
  - reflexivity.
Qed.

Lemma Qsum_concat (A : matrix) : Qsum (concat A) == total A.
Proof.
  unfold total. induction A as [|r A IH]; simpl; [reflexivity|].
  rewrite Qsum_app, IH. reflexivity.
Qed.

Lemma total_unit_rows (A : matrix) :
  (forall i, (i < length A)%nat -> Qsum (row A i) == 1) ->
  total A == inject_Z (Z.of_nat (length A)).
Proof.
  unfold total. induction A as [|r A IH]; intro H.
  - reflexivity.
  - cbn [map Qsum fold_right length]. rewrite inject_Z_succ.
    fold (Qsum (map Qsum A)). rewrite IH by (intros i Hi; apply (H (S i)); simpl; lia).
    rewrite (H O) by (simpl; lia). ring.
Qed.

Lemma inject_Z_of_nat_pos (n : nat) : (0 < n)%nat -> 0 < inject_Z (Z.of_nat n).
Proof. intro H. unfold Qlt, inject_Z. simpl. lia. Qed.

(** On a state with at least one unit, membership rows that sum to 1 and a
    nonempty [Ti], [_expected_num_transfers] raises no exception and returns
    an integer that is at least 1. *)
Theorem expected_num_transfers_at_least_one (self : Agg.t) :
  rows_sum_to_one self ->
  (0 < length (Agg.membership self))%nat ->
  Agg.Ti self <> [] ->
  exists n, Agg._expected_num_transfers self = Some n /\ (1 <= n)%Z.
Proof.
  intros Hrows HN HTi. unfold Agg._expected_num_transfers.
  destruct (Agg.Ti self) as [|t0 ts]; [congruence|]. cbn [flat_map map app].
  set (nonzero := filter (fun x => negb (Qeq_bool x 0)) (concat (Agg.membership self))).
  assert (Hsum : Qsum nonzero == inject_Z (Z.of_nat (length (Agg.membership self)))).
  { unfold nonzero. rewrite Qsum_filter_nonzero, Qsum_concat.
    apply total_unit_rows. intros i Hi. apply (Hrows i Hi). }
  pose proof (inject_Z_of_nat_pos _ HN) as Hpos.
  assert (Hlen : (0 < length nonzero)%nat).
  { destruct nonzero as [|x l]; [|simpl; lia]. simpl in Hsum. lra. }
  pose proof (inject_Z_of_nat_pos _ Hlen) as Hlpos.
  rewrite np_div_fin by lra.
  assert (Hmean : 0 < Qsum nonzero / inject_Z (Z.of_nat (length nonzero))).
  { apply Qlt_shift_div_l; [exact Hlpos|]. lra. }
  rewrite np_div_fin by lra.
  eexists. split; [reflexivity|]. lia.
Qed.

Lemma expected_num_transfers_at_least_one_witness :
  exists n, Agg._expected_num_transfers scenario = Some n /\ (1 <= n)%Z.
Proof.
  apply (expected_num_transfers_at_least_one scenario).
  - exact scenario_rows_sum_to_one.
  - simpl. lia.
  - discriminate.
Defined.

(** ** The two percents *)

(** The minimum feasible percent is half the difference of the zero
    percents of the two clusters. *)
Theorem minimum_percent_half_difference (self : Agg.t) (i j_old j_new : nat)
    (zero_old zero_new : Q) :
  length (row (Agg.Tij self) j_old) = length (row (Agg.Tij self) j_new) ->
  Agg._zero_percent self i j_old = Fin zero_old ->
  Agg._zero_percent self i j_new = Fin zero_new ->
  exists p,
    Agg._minimum_percent self i j_old j_new = Fin p
    /\ p == (zero_old - zero_new) / 2.
Proof.
  intros Hlen Ho Hn. unfold Agg._zero_percent, np_div in Ho, Hn.
  destruct (Qeq_bool (Agg.aux_norm self i) 0) eqn:E.
  - destruct (Qltb 0 _) in Ho; [discriminate|]. destruct (Qltb _ 0) in Ho; discriminate.
  - apply Qeq_bool_neq in E. injection Ho as <-. injection Hn as <-.
    eexists. split.
    + unfold Agg._minimum_percent. apply np_div_fin. intro E2. apply E. lra.
    + rewrite aux_dot_vsub by exact Hlen. field. exact E.
Qed.

Lemma minimum_percent_half_difference_witness :
  exists p, Agg._minimum_percent scenario 1 0 1 = Fin p /\ p == (2 - -2) / 2.
Proof.
  destruct (Agg._zero_percent scenario 1 0) as [zo| | |] eqn:Eo;
    try (vm_compute in Eo; discriminate Eo).
  destruct (Agg._zero_percent scenario 1 1) as [zn| | |] eqn:En;
    try (vm_compute in En; discriminate En).
  destruct (minimum_percent_half_difference scenario 1 0 1 zo zn eq_refl Eo En)
    as (p & Hp & Hq).
  exists p. split; [exact Hp|]. rewrite Hq.
  vm_compute in Eo. injection Eo as <-. vm_compute in En. injection En as <-.
  reflexivity.
Defined.

(** Taking the zero percent of unit [i] out of cluster [c] brings the
    weighted contribution of [c] along the auxiliary vector of [i] to zero,
    for the [Tij] generated from the updated membership. *)
Theorem zero_percent_zeroes (self : Agg.t) (i c j_new : nat) :
  well_shaped self ->
  Agg.Tij self = Agg._generate_Tij self ->
  (i < Agg.N self)%nat ->
  (c < Z.to_nat (Agg.k self))%nat ->
  (j_new < Z.to_nat (Agg.k self))%nat ->
  c <> j_new ->
  ~ Agg.aux_norm self i == 0 ->
  exists amount,
    Agg._zero_percent self i c = Fin amount
    /\ let self' := Agg.with_membership self
                      (Agg.move_mass (Agg.membership self) i c j_new amount) in
       Agg.aux_dot self i (row (Agg._generate_Tij self') c) == 0.
Proof.
  intros Hws Hsync Hi Hc Ht Hne Hn.
  eexists. split.
  { unfold Agg._zero_percent. apply np_div_fin. exact Hn. }
  cbv zeta.
  rewrite (aux_dot_move_mass self i c j_new c _ Hws Hi Hc).
  destruct Hws as (HX & HXr & Hw & HM & HMr).
  assert (Hfr : (c < length (row (Agg.membership self) i))%nat) by (rewrite HMr; assumption).
  assert (Htr : (j_new < length (row (Agg.membership self) i))%nat) by (rewrite HMr; assumption).
  rewrite move_mass_from by assumption. rewrite Hsync. field. exact Hn.
Qed.

Lemma zero_percent_zeroes_witness :
  exists amount,
    Agg._zero_percent scenario 1 0 = Fin amount
    /\ Agg.aux_dot scenario 1
         (row (Agg._generate_Tij
                 (Agg.with_membership scenario
                    (Agg.move_mass (Agg.membership scenario) 1 0 1 amount))) 0) == 0.
Proof.
  apply (zero_percent_zeroes scenario 1 0 1).
  - exact scenario_well_shaped.
  - reflexivity.
  - simpl. lia.
  - simpl. lia.
  - simpl. lia.
  - discriminate.
  - vm_compute. discriminate.
Defined.

(** ** The stop condition *)

(** The stop condition is monotone in the tolerance exponent: a state that
    is balanced for the exponent [tau] is balanced for every smaller
    exponent, that is, for every looser tolerance. *)
Theorem stop_condition_monotone (self : Agg.t) (tau tau' : Z) :
  (tau' <= tau)%Z ->
  Agg._stop_codition self tau = true ->
  Agg._stop_codition self tau' = true.
Proof.
  intros Hle H. unfold Agg._stop_codition in *. rewrite forallb_forall in *.
  intros x Hx. specialize (H x Hx). apply Qltb_lt. apply Qltb_lt in H.
  assert (Hp : (10 # 1) ^ (- tau) <= (10 # 1) ^ (- tau')).
  { apply Qpower_le_compat_l; [lia|discriminate]. }
  lra.
Qed.

Lemma stop_condition_monotone_witness : Agg._stop_codition converged 3 = true.
Proof.
  apply (stop_condition_monotone converged 9 3); [lia|vm_compute; reflexivity].
Defined.
